(** * Workflow graph: topology, parallel regions and execution frontier

    A shallow embedding of [api/core/workflow/graph_engine/entities/graph.py]
    and the properties of it that the specification states.

    Python dictionaries that are only read by key are [gmap]s; dictionaries
    whose iteration order is observed are insertion-ordered association
    lists ([odict]).  Lists mutated in place are threaded through the calls
    that share them.  A recursive method takes a [fuel] argument that bounds
    the depth of the call stack; [None] means that the recursion did not
    bottom out within that depth. *)

From stdpp Require Import gmap strings list fin_maps relations.

Set Warnings "-clear-no-such-hyp".

Open Scope string_scope.
Open Scope list_scope.
Open Scope nat_scope.

(** ** Python values and control *)

(** Exceptions the module can raise. *)
Inductive key :=
  | NodeKey (node_id : string)
  | ParallelKey (parallel_id : nat).

Inductive exn :=
  | ValueError (message : string)
  | KeyError (k : key).

Inductive result (A : Type) :=
  | Ok (a : A)
  | Raise (e : exn).
Arguments Ok {A} a.
Arguments Raise {A} e.

Definition result_bind {A B} (r : result A) (k : A → result B) : result B :=
  match r with
  | Ok a => k a
  | Raise e => Raise e
  end.

(** [for x in l: s = f(s, x)] where the body may raise. *)
Fixpoint for_result {A S} (f : S → A → result S) (s : S) (l : list A) : result S :=
  match l with
  | [] => Ok s
  | x :: l => result_bind (f s x) (λ s', for_result f s' l)
  end.

(** [for x in l: s = f(s, x)] where the body may recurse too deep. *)
Fixpoint for_each {A S} (f : S → A → option S) (s : S) (l : list A) : option S :=
  match l with
  | [] => Some s
  | x :: l => s' ← f s x; for_each f s' l
  end.

(** Truth value of an [Optional[str]]: [None] and [''] are falsy. *)
Definition truthy (o : option string) : bool :=
  match o with
  | Some s => bool_decide (s ≠ "")
  | None => false
  end.

(** The string of a truthy [Optional[str]]. *)
Definition truthy_str (o : option string) : option string :=
  match o with
  | Some s => if bool_decide (s ≠ "") then Some s else None
  | None => None
  end.

(** ** Insertion-ordered dictionaries

    The local dictionaries of [_fetch_all_node_ids_in_parallels] are
    iterated with [.items()], so the order of their keys is kept. *)

Definition odict (V : Type) := list (string * V).

Fixpoint odict_get {V} (d : odict V) (k : string) : option V :=
  match d with
  | [] => None
  | (k', v) :: d => if decide (k' = k) then Some v else odict_get d k
  end.

(** [d[k] = v]: an existing key keeps its position. *)
Fixpoint odict_set {V} (d : odict V) (k : string) (v : V) : odict V :=
  match d with
  | [] => [(k, v)]
  | (k', v') :: d => if decide (k' = k) then (k, v) :: d else (k', v') :: odict_set d k v
  end.

Definition odict_keys {V} (d : odict V) : list string := d.*1.

(** [if k not in d: d[k] = []] followed by [d[k].append(x)]. *)
Definition odict_append {A} (d : odict (list A)) (k : string) (x : A) : odict (list A) :=
  odict_set d k (default [] (odict_get d k) ++ [x]).

(** ** Data model *)

(** [RunCondition] is declared in [run_condition.py]; the graph reads its
    discriminant and the branch selector. *)
Module RunCondition.
Record t := mk {
  type : string;
  branch_identify : option string;
}.
End RunCondition.

Module GraphEdge.
Record t := mk {
  source_node_id : string;
  target_node_id : string;
  run_condition : option RunCondition.t;
}.
End GraphEdge.

(** [id] defaults to [str(uuid.uuid4())].  The generator is modelled as a
    supply of pairwise distinct identifiers, the n-th identifier issued
    being [n]. *)
Module GraphParallel.
Record t := mk {
  id : nat;
  parent_parallel_id : option nat;
}.
End GraphParallel.

Module GraphStateRoute.
Record t := mk {
  route_id : string;
  node_id : string;
}.
End GraphStateRoute.

(** [VariablePool] and [NodeRunResult] are declared in other modules of the
    repository; the graph stores them and never looks inside. *)
Inductive VariablePool := VariablePoolRef (handle : nat).
Inductive NodeRunResult := NodeRunResultRef (handle : nat).

Module GraphState.
Record t := mk {
  routes : gmap string (list GraphStateRoute.t);
  variable_pool : VariablePool;
  node_route_results : gmap string NodeRunResult;
}.
End GraphState.

Module NextGraphNode.
Record t := mk {
  node_id : string;
  parallel : option GraphParallel.t;
}.
End NextGraphNode.

Module Graph.
Record t := mk {
  root_node_id : string;
  node_ids : list string;
  edge_mapping : gmap string (list GraphEdge.t);
  parallel_mapping : gmap nat GraphParallel.t;
  node_parallel_mapping : gmap string nat;
  run_state : GraphState.t;
}.
End Graph.

(** ** Graph configuration

    [graph_config] is a dictionary; the keys [init] reads are fields, an
    absent key (or a [None] value) is [None]. *)
Module EdgeConfig.
Record t := mk {
  source : option string;
  target : option string;
  sourceHandle : option string;
}.
End EdgeConfig.

Module NodeData.
Record t := mk {
  type : option string;
}.
End NodeData.

Module NodeConfig.
Record t := mk {
  id : option string;
  data : option NodeData.t;
}.
End NodeConfig.

Module GraphConfig.
Record t := mk {
  edges : option (list EdgeConfig.t);
  nodes : option (list NodeConfig.t);
}.
End GraphConfig.

(** Modelled from the spec: [NodeType.START.value], the designated "start"
    kind; the enumeration lives in [node_entities.py]. *)
Definition NodeType_START_value : string := "start".

(** ** Reachable closure *)

(** [edge_mapping.get(node_id, [])] *)
Definition edges_of (edge_mapping : gmap string (list GraphEdge.t)) (node_id : string)
    : list GraphEdge.t :=
  default [] (edge_mapping !! node_id).

Fixpoint _recursively_add_node_ids (fuel : nat)
    (node_ids : list string)
    (edge_mapping : gmap string (list GraphEdge.t))
    (node_id : string) : option (list string) :=
  match fuel with
  | 0 => None
  | S fuel =>
    for_each (λ node_ids graph_edge,
        if bool_decide (GraphEdge.target_node_id graph_edge ∈ node_ids) then
          Some node_ids
        else
          _recursively_add_node_ids fuel
            (node_ids ++ [GraphEdge.target_node_id graph_edge])
            edge_mapping
            (GraphEdge.target_node_id graph_edge))
      node_ids (edges_of edge_mapping node_id)
  end.

(** ** Parallel regions *)

Fixpoint _recursively_fetch_routes (fuel : nat)
    (edge_mapping : gmap string (list GraphEdge.t))
    (start_node_id : string)
    (routes_node_ids : list string) : option (list string) :=
  match fuel with
  | 0 => None
  | S fuel =>
    match edge_mapping !! start_node_id with
    | None => Some routes_node_ids
    | Some graph_edges =>
      for_each (λ routes_node_ids graph_edge,
          if bool_decide (GraphEdge.target_node_id graph_edge ∈ routes_node_ids) then
            Some routes_node_ids
          else
            _recursively_fetch_routes fuel edge_mapping
              (GraphEdge.target_node_id graph_edge)
              (routes_node_ids ++ [GraphEdge.target_node_id graph_edge]))
        routes_node_ids graph_edges
    end
  end.

Fixpoint _recursively_add_parallel_node_ids (fuel : nat)
    (branch_node_ids : list string)
    (edge_mapping : gmap string (list GraphEdge.t))
    (merge_node_id : string)
    (start_node_id : string) : option (list string) :=
  match fuel with
  | 0 => None
  | S fuel =>
    for_each (λ branch_node_ids graph_edge,
        if bool_decide (GraphEdge.target_node_id graph_edge ≠ merge_node_id
                        ∧ GraphEdge.target_node_id graph_edge ∉ branch_node_ids) then
          _recursively_add_parallel_node_ids fuel
            (branch_node_ids ++ [GraphEdge.target_node_id graph_edge])
            edge_mapping merge_node_id
            (GraphEdge.target_node_id graph_edge)
        else
          Some branch_node_ids)
      branch_node_ids (edges_of edge_mapping start_node_id)
  end.

(** [sorted(items, key=lambda x: len(x[1]), reverse=True)]: a stable sort,
    longest list first, equal lengths in their original order. *)
Fixpoint insert_by_len_desc {A} (x : string * list A) (l : list (string * list A))
    : list (string * list A) :=
  match l with
  | [] => [x]
  | y :: l' =>
    if bool_decide (length y.2 ≤ length x.2) then x :: l
    else y :: insert_by_len_desc x l'
  end.

Definition sorted_by_len_desc {A} (l : list (string * list A)) : list (string * list A) :=
  foldr insert_by_len_desc [] l.

(** The first loop nest of [_fetch_all_node_ids_in_parallels] over
    [routes_node_ids]: the pair [(leaf_node_ids, merge_branch_node_ids)]. *)
Definition leaf_and_merge_branch_node_ids
    (edge_mapping : gmap string (list GraphEdge.t))
    (routes_node_ids : odict (list string))
    : odict (list string) * odict (list string) :=
  foldl (λ acc item,
      let '(branch_node_id, node_ids) := item in
      foldl (λ acc node_id,
          let '(leaf_node_ids, merge_branch_node_ids) := acc in
          let leaf_node_ids :=
            if bool_decide (edge_mapping !! node_id = None
                            ∨ length (edges_of edge_mapping node_id) = 0) then
              odict_append leaf_node_ids branch_node_id node_id
            else leaf_node_ids in
          let merge_branch_node_ids :=
            foldl (λ merge_branch_node_ids item2,
                let '(branch_node_id2, inner_route2) := item2 in
                if bool_decide (branch_node_id ≠ branch_node_id2 ∧ node_id ∈ inner_route2) then
                  odict_append merge_branch_node_ids node_id branch_node_id2
                else merge_branch_node_ids)
              merge_branch_node_ids routes_node_ids in
          (leaf_node_ids, merge_branch_node_ids))
        acc node_ids)
    ([], []) routes_node_ids.

(** The loop that fills [branches_merge_node_ids]. *)
Definition assign_merge_node_ids (merge_branch_node_ids : odict (list string))
    : odict string :=
  foldl (λ branches_merge_node_ids item,
      let '(node_id, branch_node_ids) := item in
      if bool_decide (length branch_node_ids ≤ 1) then branches_merge_node_ids
      else
        foldl (λ branches_merge_node_ids branch_node_id,
            if bool_decide (is_Some (odict_get branches_merge_node_ids branch_node_id)) then
              branches_merge_node_ids
            else odict_set branches_merge_node_ids branch_node_id node_id)
          branches_merge_node_ids branch_node_ids)
    [] merge_branch_node_ids.

Definition _fetch_all_node_ids_in_parallels (fuel : nat)
    (edge_mapping : gmap string (list GraphEdge.t))
    (parallel_node_ids : list string) : option (odict (list string)) :=
  routes_node_ids ←
    for_each (λ routes_node_ids parallel_node_id,
        route ← _recursively_fetch_routes fuel edge_mapping parallel_node_id [];
        Some (odict_set routes_node_ids parallel_node_id route))
      [] parallel_node_ids;
  let '(leaf_node_ids, merge_branch_node_ids) :=
    leaf_and_merge_branch_node_ids edge_mapping routes_node_ids in
  let merge_branch_node_ids := sorted_by_len_desc merge_branch_node_ids in
  let branches_merge_node_ids := assign_merge_node_ids merge_branch_node_ids in
  for_each (λ in_branch_node_ids item,
      let '(branch_node_id, node_ids) := item in
      match odict_get branches_merge_node_ids branch_node_id with
      | None =>
        Some (odict_set in_branch_node_ids branch_node_id ([branch_node_id] ++ node_ids))
      | Some merge_node_id =>
        branch ← _recursively_add_parallel_node_ids fuel
                   [branch_node_id] edge_mapping merge_node_id branch_node_id;
        Some (odict_set in_branch_node_ids branch_node_id branch)
      end)
    [] routes_node_ids.

(** The two dictionaries [_recursively_add_parallels] mutates, with the
    number of identifiers the generator has issued so far. *)
Record parallels := mk_parallels {
  parallel_mapping : gmap nat GraphParallel.t;
  node_parallel_mapping : gmap string nat;
  uuid_issued : nat;
}.

(** Lines 321-323: the parent of a new parallel. *)
Definition parent_of (node_parallel_mapping : gmap string nat)
    (parallel_node_ids : list string) : option nat :=
  if forallb (λ node_id, bool_decide (is_Some (node_parallel_mapping !! node_id)))
       parallel_node_ids
  then head parallel_node_ids ≫= λ node_id, node_parallel_mapping !! node_id
  else None.

(** [node_parallel_mapping.update({node_id: parallel.id for node_id in
    in_branch_node_ids})]: iterating a dictionary yields its keys. *)
Definition update_with_keys (node_parallel_mapping : gmap string nat)
    (in_branch_node_ids : odict (list string)) (parallel_id : nat) : gmap string nat :=
  foldl (λ m node_id, <[node_id := parallel_id]> m)
    node_parallel_mapping (odict_keys in_branch_node_ids).

(** Lines 313-333 of [_recursively_add_parallels]: the fan-out test at
    [start_node_id] and, when it succeeds, the new parallel and the
    update of the two dictionaries. *)
Definition add_parallel_at (fuel : nat)
    (edge_mapping : gmap string (list GraphEdge.t))
    (start_node_id : string)
    (st : parallels) : option parallels :=
  let target_node_edges := edges_of edge_mapping start_node_id in
  if bool_decide (1 < length target_node_edges) then
    let parallel_node_ids :=
      GraphEdge.target_node_id <$>
        filter (λ graph_edge, GraphEdge.run_condition graph_edge ≠ None)
          target_node_edges in
    match parallel_node_ids with
    | [] => Some st
    | _ :: _ =>
      let parent_parallel_id :=
        parent_of (node_parallel_mapping st) parallel_node_ids in
      let parallel := GraphParallel.mk (uuid_issued st) parent_parallel_id in
      in_branch_node_ids ←
        _fetch_all_node_ids_in_parallels fuel edge_mapping parallel_node_ids;
      Some {|
        parallel_mapping :=
          <[GraphParallel.id parallel := parallel]> (parallel_mapping st);
        node_parallel_mapping :=
          update_with_keys (node_parallel_mapping st) in_branch_node_ids
            (GraphParallel.id parallel);
        uuid_issued := S (uuid_issued st);
      |}
    end
  else Some st.

Fixpoint _recursively_add_parallels (fuel : nat)
    (edge_mapping : gmap string (list GraphEdge.t))
    (start_node_id : string)
    (st : parallels) : option parallels :=
  match fuel with
  | 0 => None
  | S fuel =>
    st ← add_parallel_at fuel edge_mapping start_node_id st;
    for_each (λ st graph_edge,
        _recursively_add_parallels fuel edge_mapping
          (GraphEdge.target_node_id graph_edge) st)
      st (edges_of edge_mapping start_node_id)
  end.

(** ** Construction *)

(** One iteration of the loop over [edge_configs] (lines 100-128); the
    state is [(edge_mapping, target_edge_ids)]. *)
Definition parse_edge_config
    (acc : gmap string (list GraphEdge.t) * gset string)
    (edge_config : EdgeConfig.t) : gmap string (list GraphEdge.t) * gset string :=
  let '(edge_mapping, target_edge_ids) := acc in
  match truthy_str (EdgeConfig.source edge_config) with
  | None => acc
  | Some source_node_id =>
    let edge_mapping :=
      if bool_decide (is_Some (edge_mapping !! source_node_id)) then edge_mapping
      else <[source_node_id := []]> edge_mapping in
    match truthy_str (EdgeConfig.target edge_config) with
    | None => (edge_mapping, target_edge_ids)
    | Some target_node_id =>
      let target_edge_ids := target_edge_ids ∪ {[target_node_id]} in
      let run_condition :=
        if truthy (EdgeConfig.sourceHandle edge_config) then
          Some (RunCondition.mk "branch_identify" (EdgeConfig.sourceHandle edge_config))
        else None in
      let graph_edge := GraphEdge.mk source_node_id target_node_id run_condition in
      (<[source_node_id := edges_of edge_mapping source_node_id ++ [graph_edge]]> edge_mapping,
       target_edge_ids)
    end
  end.

Definition parse_edge_configs (edge_configs : list EdgeConfig.t)
    : gmap string (list GraphEdge.t) * gset string :=
  foldl parse_edge_config (∅, ∅) edge_configs.

(** [node_config.get('data', {}).get('type', '')] *)
Definition node_type (node_config : NodeConfig.t) : string :=
  default "" (NodeConfig.data node_config ≫= NodeData.type).

(** Lines 138-145: the node configs with a truthy id that is no edge's
    target. *)
Definition fetch_root_node_configs (target_edge_ids : gset string)
    (node_configs : list NodeConfig.t) : list NodeConfig.t :=
  List.filter (λ node_config,
      match truthy_str (NodeConfig.id node_config) with
      | Some node_id => bool_decide (node_id ∉ target_edge_ids)
      | None => false
      end)
    node_configs.

(** What the variable [root_node_id] of [init] holds after line 153: the
    argument, or the result of [next(...)], which is an element of
    [root_node_configs] (a dictionary) or [None]. *)
Inductive root_value :=
  | RootNone
  | RootStr (s : string)
  | RootNodeConfig (node_config : NodeConfig.t).

Definition fetch_root_node (root_node_id : option string)
    (root_node_configs : list NodeConfig.t) : root_value :=
  match truthy_str root_node_id with
  | Some s => RootStr s
  | None =>
    match List.find (λ node_config,
              bool_decide (node_type node_config = NodeType_START_value))
            root_node_configs with
    | Some node_config => RootNodeConfig node_config
    | None => RootNone
    end
  end.

(** Line 155, negated: the value is truthy and an element of
    [root_node_ids].  The elements of [root_node_ids] are strings, and a
    dictionary is equal to no string. *)
Definition root_found (root : root_value) (root_node_ids : list (option string))
    : option string :=
  match root with
  | RootStr s =>
    if bool_decide (s ≠ "" ∧ Some s ∈ root_node_ids) then Some s else None
  | RootNodeConfig _ => None
  | RootNone => None
  end.

Definition init (fuel : nat) (graph_config : GraphConfig.t)
    (variable_pool : VariablePool) (root_node_id : option string)
    : option (result Graph.t) :=
  let edge_configs := default [] (GraphConfig.edges graph_config) in
  let '(edge_mapping, target_edge_ids) := parse_edge_configs edge_configs in
  match GraphConfig.nodes graph_config with
  | None | Some [] => Some (Raise (ValueError "Graph must have at least one node"))
  | Some node_configs =>
    let root_node_configs := fetch_root_node_configs target_edge_ids node_configs in
    let root_node_ids := NodeConfig.id <$> root_node_configs in
    let root := fetch_root_node root_node_id root_node_configs in
    match root_found root root_node_ids with
    | None => Some (Raise (ValueError "Root node id {root_node_id} not found in the graph"))
    | Some root_node_id =>
      node_ids ← _recursively_add_node_ids fuel [root_node_id] edge_mapping root_node_id;
      st ← _recursively_add_parallels fuel edge_mapping root_node_id
             (mk_parallels ∅ ∅ 0);
      Some (Ok {|
        Graph.root_node_id := root_node_id;
        Graph.node_ids := node_ids;
        Graph.edge_mapping := edge_mapping;
        Graph.run_state := GraphState.mk ∅ variable_pool ∅;
        Graph.parallel_mapping := parallel_mapping st;
        Graph.node_parallel_mapping := node_parallel_mapping st;
      |})
    end
  end.

(** ** Execution frontier *)

Section Frontier.

(** [ConditionManager.get_condition_handler(run_condition).check(...)]:
    the handlers are outside this file; a handler answers or raises. *)
Variable check : RunCondition.t → string → string → Graph.t → result bool.

(** Lines 221-229. *)
Definition route_final_graph_edges (self : Graph.t)
    (root_routes : list GraphStateRoute.t) : list GraphEdge.t :=
  foldl (λ acc route,
      match Graph.edge_mapping self !! GraphStateRoute.node_id route with
      | None | Some [] => acc
      | Some graph_edges =>
        foldl (λ acc edge,
            if bool_decide (is_Some (GraphState.routes (Graph.run_state self)
                                       !! GraphEdge.target_node_id edge))
            then acc else acc ++ [edge])
          acc graph_edges
      end)
    [] root_routes.

(** Lines 247-249. *)
Definition parallel_of (self : Graph.t) (node_id : string)
    : result (option GraphParallel.t) :=
  match Graph.node_parallel_mapping self !! node_id with
  | None => Ok None
  | Some parallel_id =>
    match Graph.parallel_mapping self !! parallel_id with
    | Some parallel => Ok (Some parallel)
    | None => Raise (KeyError (ParallelKey parallel_id))
    end
  end.

Definition next_node_ids (self : Graph.t) : result (list NextGraphNode.t) :=
  let routes := GraphState.routes (Graph.run_state self) in
  if bool_decide (routes = ∅) then
    Ok [NextGraphNode.mk (Graph.root_node_id self) None]
  else
    match routes !! Graph.root_node_id self with
    | None => Raise (KeyError (NodeKey (Graph.root_node_id self)))
    | Some root_routes =>
      for_result (λ next_graph_nodes route_final_graph_edge,
          let node_id := GraphEdge.target_node_id route_final_graph_edge in
          result_bind
            (match GraphEdge.run_condition route_final_graph_edge with
             | Some run_condition =>
               check run_condition
                 (GraphEdge.source_node_id route_final_graph_edge)
                 (GraphEdge.target_node_id route_final_graph_edge)
                 self
             | None => Ok true
             end)
            (λ result,
               if result : bool then
                 result_bind (parallel_of self node_id) (λ parallel,
                   Ok (next_graph_nodes ++ [NextGraphNode.mk node_id parallel]))
               else Ok next_graph_nodes))
        [] (route_final_graph_edges self root_routes)
    end.

End Frontier.

(** ** Mutation and queries *)

Definition set_edge_mapping (self : Graph.t)
    (edge_mapping : gmap string (list GraphEdge.t)) : Graph.t :=
  {| Graph.root_node_id := Graph.root_node_id self;
     Graph.node_ids := Graph.node_ids self;
     Graph.edge_mapping := edge_mapping;
     Graph.parallel_mapping := Graph.parallel_mapping self;
     Graph.node_parallel_mapping := Graph.node_parallel_mapping self;
     Graph.run_state := Graph.run_state self |}.

(** [d[k]] *)
Definition getitem {V} (d : gmap string V) (k : string) : result V :=
  match d !! k with
  | Some v => Ok v
  | None => Raise (KeyError (NodeKey k))
  end.

(** The graph is mutated in place; the result is the graph after the call. *)
Definition add_extra_edge (self : Graph.t) (source_node_id target_node_id : string)
    (run_condition : option RunCondition.t) : result Graph.t :=
  if bool_decide (source_node_id ∉ Graph.node_ids self
                  ∨ target_node_id ∉ Graph.node_ids self) then
    Ok self
  else
    let self :=
      if bool_decide (is_Some (Graph.edge_mapping self !! source_node_id)) then self
      else set_edge_mapping self (<[source_node_id := []]> (Graph.edge_mapping self)) in
    result_bind (getitem (Graph.edge_mapping self) source_node_id) (λ graph_edges,
      if bool_decide (target_node_id ∈ GraphEdge.target_node_id <$> graph_edges) then
        Ok self
      else
        let graph_edge := GraphEdge.mk source_node_id target_node_id run_condition in
        result_bind (getitem (Graph.edge_mapping self) source_node_id) (λ graph_edges,
          Ok (set_edge_mapping self
                (<[source_node_id := graph_edges ++ [graph_edge]]>
                   (Graph.edge_mapping self))))).

Definition get_leaf_node_ids (self : Graph.t) : list string :=
  foldl (λ leaf_node_ids node_id,
      match Graph.edge_mapping self !! node_id with
      | None => leaf_node_ids ++ [node_id]
      | Some graph_edges =>
        if bool_decide (length graph_edges = 1
                        ∧ (GraphEdge.target_node_id <$> head graph_edges)
                          = Some (Graph.root_node_id self))
        then leaf_node_ids ++ [node_id]
        else leaf_node_ids
      end)
    [] (Graph.node_ids self).

(** ** Vocabulary of the statements *)

(** The targets of the edges stored under [node_id], in stored order. *)
Definition targets (edge_mapping : gmap string (list GraphEdge.t)) (node_id : string)
    : list string :=
  GraphEdge.target_node_id <$> edges_of edge_mapping node_id.

(** [edge em s t]: adjacency holds an edge from [s] to [t]. *)
Definition edge (edge_mapping : gmap string (list GraphEdge.t)) (s t : string) : Prop :=
  t ∈ targets edge_mapping s.

(** Depth-first discovery, stated on a worklist of pending targets:
    [discovered em pending visited result] holds when working off
    [pending] from left to right, appending each target that is not yet
    in [visited] and putting its own targets in front of the worklist,
    ends with [result]. *)
Inductive discovered (edge_mapping : gmap string (list GraphEdge.t))
    : list string → list string → list string → Prop :=
  | discovered_done visited :
      discovered edge_mapping [] visited visited
  | discovered_seen t pending visited result :
      t ∈ visited →
      discovered edge_mapping pending visited result →
      discovered edge_mapping (t :: pending) visited result
  | discovered_new t pending visited result :
      t ∉ visited →
      discovered edge_mapping (targets edge_mapping t ++ pending) (visited ++ [t]) result →
      discovered edge_mapping (t :: pending) visited result.

(** The adjacency [init] builds from a configuration. *)
Definition config_edge_mapping (graph_config : GraphConfig.t)
    : gmap string (list GraphEdge.t) :=
  (parse_edge_configs (default [] (GraphConfig.edges graph_config))).1.

(** The part of the graph reachable from [root] has no cycle except
    through edges that lead back to [root]. *)
Definition loop_back_tolerated (edge_mapping : gmap string (list GraphEdge.t))
    (root : string) : Prop :=
  ∀ n, rtc (edge edge_mapping) root n →
       ¬ tc (λ s t, edge edge_mapping s t ∧ t ≠ root) n n.

(** Every target that occurs in adjacency. *)
Definition all_targets (edge_mapping : gmap string (list GraphEdge.t)) : gset string :=
  list_to_set (map_to_list edge_mapping ≫= λ item, GraphEdge.target_node_id <$> item.2).

(** The scheme the three list-building traversals share: follow the stored
    edges of [node_id], skip a target that is already in [visited] or at
    which [stop] holds, append any other target and continue from it. *)
Fixpoint guarded_walk (stop : string → bool) (fuel : nat)
    (edge_mapping : gmap string (list GraphEdge.t))
    (visited : list string) (node_id : string) : option (list string) :=
  match fuel with
  | 0 => None
  | S fuel =>
    for_each (λ visited graph_edge,
        if bool_decide (GraphEdge.target_node_id graph_edge ∈ visited)
           || stop (GraphEdge.target_node_id graph_edge)
        then Some visited
        else guarded_walk stop fuel edge_mapping
               (visited ++ [GraphEdge.target_node_id graph_edge])
               (GraphEdge.target_node_id graph_edge))
      visited (edges_of edge_mapping node_id)
  end.

(** ** Configurations used in the statements *)

Definition node (id kind : string) : NodeConfig.t :=
  NodeConfig.mk (Some id) (Some (NodeData.mk (Some kind))).

(** An edge entry without [sourceHandle]. *)
Definition plain_edge (source target : string) : EdgeConfig.t :=
  EdgeConfig.mk (Some source) (Some target) None.

(** An edge entry with a [sourceHandle]. *)
Definition branch_edge (source target handle : string) : EdgeConfig.t :=
  EdgeConfig.mk (Some source) (Some target) (Some handle).

(** Nodes A (start), B, C and the single edge A→B. *)
Definition start_config : GraphConfig.t :=
  GraphConfig.mk
    (Some [plain_edge "A" "B"])
    (Some [node "A" "start"; node "B" "llm"; node "C" "llm"]).

(** A→B (selector "x"), A→C (selector "y"), B→D, C→D. *)
Definition diamond_config : GraphConfig.t :=
  GraphConfig.mk
    (Some [branch_edge "A" "B" "x"; branch_edge "A" "C" "y";
           plain_edge "B" "D"; plain_edge "C" "D"])
    (Some [node "A" "start"; node "B" "llm"; node "C" "llm"; node "D" "end"]).

(** Two fan-outs, at R (branch root X) and at Q (branch root Y), followed
    by a fan-out at N whose branch roots are X and Y. *)
Definition crossed_config : GraphConfig.t :=
  GraphConfig.mk
    (Some [branch_edge "R" "X" "a"; plain_edge "R" "Q";
           branch_edge "Q" "Y" "a"; plain_edge "Q" "N";
           branch_edge "N" "X" "a"; branch_edge "N" "Y" "b"])
    (Some [node "R" "start"; node "X" "llm"; node "Q" "llm";
           node "Y" "llm"; node "N" "if-else"]).

(** The state of the detection walk of [crossed_config] after the fan-out
    at the root R: X belongs to the parallel of R. *)
Definition crossed_at_Q : parallels :=
  {| parallel_mapping := {[0 := GraphParallel.mk 0 None]};
     node_parallel_mapping := {["X" := 0]};
     uuid_issued := 1 |}.

(** The state of the walk when it arrives at N, after the fan-out at Q: X
    belongs to the parallel of R, Y to the parallel of Q. *)
Definition crossed_at_N : parallels :=
  {| parallel_mapping := {[0 := GraphParallel.mk 0 None; 1 := GraphParallel.mk 1 None]};
     node_parallel_mapping := {["X" := 0; "Y" := 1]};
     uuid_issued := 2 |}.

(** A fan-out at A with branch roots B and C, and inside branch B a
    fan-out with branch roots B1 and B2. *)
Definition nested_config : GraphConfig.t :=
  GraphConfig.mk
    (Some [branch_edge "A" "B" "x"; branch_edge "A" "C" "y";
           branch_edge "B" "B1" "p"; branch_edge "B" "B2" "q"])
    (Some [node "A" "start"; node "B" "if-else"; node "C" "llm";
           node "B1" "llm"; node "B2" "llm"]).

(** One node S whose only edge entry has no [target]. *)
Definition dangling_config : GraphConfig.t :=
  GraphConfig.mk
    (Some [EdgeConfig.mk (Some "S") None None])
    (Some [node "S" "start"]).

(** A→B and the edge B→A that leads back to the root A. *)
Definition loop_back_config : GraphConfig.t :=
  GraphConfig.mk
    (Some [plain_edge "A" "B"; plain_edge "B" "A"])
    (Some [node "A" "start"; node "B" "llm"]).

(** S→A, A→B and B→A: a cycle that does not pass through the root S. *)
Definition inner_cycle_config : GraphConfig.t :=
  GraphConfig.mk
    (Some [plain_edge "S" "A"; plain_edge "A" "B"; plain_edge "B" "A"])
    (Some [node "S" "start"; node "A" "llm"; node "B" "llm"]).

(** Scope linkage as the specification words it: the parent is the scope
    all branch roots share, and there is none when a branch root has no
    scope or two branch roots have different scopes. *)
Definition spec_parent_of (node_parallel_mapping : gmap string nat)
    (parallel_node_ids : list string) : option nat :=
  match parallel_node_ids with
  | [] => None
  | first :: _ =>
    match node_parallel_mapping !! first with
    | Some scope =>
      if forallb (λ node_id,
             bool_decide (node_parallel_mapping !! node_id = Some scope))
           parallel_node_ids
      then Some scope else None
    | None => None
    end
  end.

(** The branch roots of the fan-out at [start_node_id] (lines 315-316). *)
Definition branch_roots (edge_mapping : gmap string (list GraphEdge.t))
    (start_node_id : string) : list string :=
  GraphEdge.target_node_id <$>
    filter (λ graph_edge, GraphEdge.run_condition graph_edge ≠ None)
      (edges_of edge_mapping start_node_id).

(** The graph with [run_state.routes] replaced, as the engine leaves it
    after recording routes. *)
Definition set_routes (self : Graph.t)
    (routes : gmap string (list GraphStateRoute.t)) : Graph.t :=
  {| Graph.root_node_id := Graph.root_node_id self;
     Graph.node_ids := Graph.node_ids self;
     Graph.edge_mapping := Graph.edge_mapping self;
     Graph.parallel_mapping := Graph.parallel_mapping self;
     Graph.node_parallel_mapping := Graph.node_parallel_mapping self;
     Graph.run_state :=
       GraphState.mk routes
         (GraphState.variable_pool (Graph.run_state self))
         (GraphState.node_route_results (Graph.run_state self)) |}.

(** A graph A→B as [init] returns it, before any route is recorded. *)
Definition fresh_graph : Graph.t :=
  {| Graph.root_node_id := "A";
     Graph.node_ids := ["A"; "B"];
     Graph.edge_mapping := {["A" := [GraphEdge.mk "A" "B" None]]};
     Graph.parallel_mapping := ∅;
     Graph.node_parallel_mapping := ∅;
     Graph.run_state := GraphState.mk ∅ (VariablePoolRef 0) ∅ |}.

(** A condition handler that lets every branch pass. *)
Definition check_pass (run_condition : RunCondition.t) (source_node_id target_node_id : string)
    (graph : Graph.t) : result bool :=
  Ok true.

(** The graph [init] builds from [diamond_config] with root A. *)
Definition diamond_graph : Graph.t :=
  {| Graph.root_node_id := "A";
     Graph.node_ids := ["A"; "B"; "D"; "C"];
     Graph.edge_mapping := config_edge_mapping diamond_config;
     Graph.parallel_mapping := {[0 := GraphParallel.mk 0 None]};
     Graph.node_parallel_mapping := {["B" := 0; "C" := 0]};
     Graph.run_state := GraphState.mk ∅ (VariablePoolRef 0) ∅ |}.

(** ** Vocabulary of the further statements *)

(** The edge a well-formed edge entry stands for (lines 114-126). *)
Definition graph_edge_of_config (edge_config : EdgeConfig.t) : option GraphEdge.t :=
  source_node_id ← truthy_str (EdgeConfig.source edge_config);
  target_node_id ← truthy_str (EdgeConfig.target edge_config);
  Some (GraphEdge.mk source_node_id target_node_id
          (if truthy (EdgeConfig.sourceHandle edge_config)
           then Some (RunCondition.mk "branch_identify"
                        (EdgeConfig.sourceHandle edge_config))
           else None)).

(** [r] is the id of a node of the configuration and the target of none
    of its edges. *)
Definition valid_root (graph_config : GraphConfig.t) (r : string) : Prop :=
  r ≠ ""
  ∧ (∃ node_config, node_config ∈ default [] (GraphConfig.nodes graph_config)
                    ∧ NodeConfig.id node_config = Some r)
  ∧ ∀ s, ¬ edge (config_edge_mapping graph_config) s r.

Definition no_nodes (graph_config : GraphConfig.t) : Prop :=
  GraphConfig.nodes graph_config = None ∨ GraphConfig.nodes graph_config = Some [].

(** The parallels form a forest and every node's scope exists: each
    record is filed under its own id, a parent is an earlier parallel that
    exists, and [node_parallel_mapping] points at existing parallels. *)
Definition scopes_well_formed (parallel_mapping : gmap nat GraphParallel.t)
    (node_parallel_mapping : gmap string nat) : Prop :=
  (∀ i p, parallel_mapping !! i = Some p →
     GraphParallel.id p = i
     ∧ ∀ j, GraphParallel.parent_parallel_id p = Some j →
            j < i ∧ is_Some (parallel_mapping !! j))
  ∧ (∀ n i, node_parallel_mapping !! n = Some i → is_Some (parallel_mapping !! i)).

(** The same for a state of the detection walk, with the identifiers
    issued so far being exactly the ids in use. *)
Definition parallels_inv (st : parallels) : Prop :=
  (∀ i, is_Some (parallel_mapping st !! i) ↔ i < uuid_issued st)
  ∧ (∀ i p, parallel_mapping st !! i = Some p →
       GraphParallel.id p = i
       ∧ ∀ j, GraphParallel.parent_parallel_id p = Some j → j < i)
  ∧ (∀ n i, node_parallel_mapping st !! n = Some i → i < uuid_issued st).

(** [n] is the target of a conditioned edge of a node with more than one
    outgoing edge. *)
Definition is_branch_root (edge_mapping : gmap string (list GraphEdge.t)) (n : string)
    : Prop :=
  ∃ s, 1 < length (edges_of edge_mapping s) ∧ n ∈ branch_roots edge_mapping s.

(** [node_ids] lists, without repetition, exactly the nodes reachable from
    the root along adjacency. *)
Definition node_ids_closed (g : Graph.t) : Prop :=
  NoDup (Graph.node_ids g)
  ∧ ∀ n, n ∈ Graph.node_ids g
         ↔ rtc (edge (Graph.edge_mapping g)) (Graph.root_node_id g) n.

(** Whether the condition of an edge lets it pass: an unconditional edge
    passes, a conditioned one when its handler answers [True]. *)
Definition passes (check : RunCondition.t → string → string → Graph.t → result bool)
    (self : Graph.t) (graph_edge : GraphEdge.t) : bool :=
  match GraphEdge.run_condition graph_edge with
  | None => true
  | Some run_condition =>
    match check run_condition (GraphEdge.source_node_id graph_edge)
            (GraphEdge.target_node_id graph_edge) self with
    | Ok answer => answer
    | Raise _ => false
    end
  end.

(** The edges that leave the nodes recorded in [root_routes] and lead to a
    node without routes of its own, route by route, in stored order. *)
Definition frontier_edges (self : Graph.t) (root_routes : list GraphStateRoute.t)
    : list GraphEdge.t :=
  root_routes ≫= λ route,
    List.filter (λ graph_edge,
        bool_decide (GraphEdge.target_node_id graph_edge
                       ∉ dom (GraphState.routes (Graph.run_state self))))
      (edges_of (Graph.edge_mapping self) (GraphStateRoute.node_id route)).

(** The graph A→B of [fresh_graph] after the engine recorded the route of
    the root. *)
Definition started_graph : Graph.t :=
  set_routes fresh_graph {["A" := [GraphStateRoute.mk "r1" "A"]]}.

(** * Properties *)

(** ** Loops *)

Lemma for_each_app {A S} (f : S → A → option S) s l1 l2 :
  for_each f s (l1 ++ l2) = (s' ← for_each f s l1; for_each f s' l2).
Proof.
  revert s; induction l1 as [|x l1 IH]; intros s; simpl; [done|].
  destruct (f s x) as [s'|]; simpl; [apply IH | done].
Qed.

(** A loop whose body answers as another body does, answers as the loop
    over that other body. *)
Lemma for_each_mono {A S} (f g : S → A → option S) s l r :
  (∀ s x r, f s x = Some r → g s x = Some r) →
  for_each f s l = Some r → for_each g s l = Some r.
Proof.
  intros Hfg; revert s; induction l as [|x l IH]; intros s; simpl; [done|].
  destruct (f s x) as [s'|] eqn:Hf; simpl; [|done].
  rewrite (Hfg _ _ _ Hf); simpl. apply IH.
Qed.

(** Invariant rule for a loop. *)
Lemma for_each_inv {A S} (I : S → Prop) (f : S → A → option S) s l r :
  I s →
  (∀ s x s', x ∈ l → I s → f s x = Some s' → I s') →
  for_each f s l = Some r → I r.
Proof.
  revert s; induction l as [|x l IH]; intros s Hs Hstep; simpl.
  - by intros [= <-].
  - destruct (f s x) as [s'|] eqn:Hf; simpl; [|done].
    apply IH.
    + eapply Hstep; [left | done | done].
    + intros s1 y s2 Hy. apply Hstep. by right.
Qed.

(** Progress rule for a loop. *)
Lemma for_each_is_Some {A S} (I : S → Prop) (f : S → A → option S) s l :
  I s →
  (∀ s x, x ∈ l → I s → ∃ s', f s x = Some s' ∧ I s') →
  ∃ r, for_each f s l = Some r ∧ I r.
Proof.
  revert s; induction l as [|x l IH]; intros s Hs Hstep; simpl.
  - eauto.
  - destruct (Hstep s x) as (s' & -> & Hs'); [left | done |]; simpl.
    apply IH; [done|]. intros s1 y Hy. apply Hstep. by right.
Qed.

(** ** The guarded traversals *)

Lemma for_each_ext {A S} (f g : S → A → option S) s l :
  (∀ s x, f s x = g s x) → for_each f s l = for_each g s l.
Proof.
  intros Hfg; revert s; induction l as [|x l IH]; intros s; simpl; [done|].
  rewrite Hfg. destruct (g s x); simpl; [apply IH | done].
Qed.

Lemma add_node_ids_guarded_walk fuel : ∀ node_ids em node_id,
  _recursively_add_node_ids fuel node_ids em node_id
  = guarded_walk (λ _, false) fuel em node_ids node_id.
Proof.
  induction fuel as [|fuel IH]; intros ids em n; simpl; [done|].
  apply for_each_ext. intros v e. rewrite orb_false_r, IH. done.
Qed.

Lemma fetch_routes_guarded_walk fuel : ∀ em start_node_id routes_node_ids,
  _recursively_fetch_routes fuel em start_node_id routes_node_ids
  = guarded_walk (λ _, false) fuel em routes_node_ids start_node_id.
Proof.
  induction fuel as [|fuel IH]; intros em n ids; simpl; [done|].
  unfold edges_of. destruct (em !! n) as [es|]; simpl; [|done].
  apply for_each_ext. intros v e. rewrite orb_false_r, IH. done.
Qed.

Lemma add_parallel_node_ids_guarded_walk fuel :
  ∀ branch_node_ids em merge_node_id start_node_id,
  _recursively_add_parallel_node_ids fuel branch_node_ids em merge_node_id start_node_id
  = guarded_walk (λ t, bool_decide (t = merge_node_id)) fuel em
      branch_node_ids start_node_id.
Proof.
  induction fuel as [|fuel IH]; intros ids em merge n; simpl; [done|].
  apply for_each_ext. intros v e. rewrite IH.
  repeat case_bool_decide; simpl; try done; tauto.
Qed.

Lemma edge_of_elem em s e :
  e ∈ edges_of em s → edge em s (GraphEdge.target_node_id e).
Proof. intros He. unfold edge, targets. by apply list_elem_of_fmap_2. Qed.

Lemma edge_all_targets em s t : edge em s t → t ∈ all_targets em.
Proof.
  unfold edge, targets, edges_of, all_targets. intros Ht.
  destruct (em !! s) as [es|] eqn:Hs; simpl in Ht; [|by apply elem_of_nil in Ht].
  apply elem_of_list_to_set, list_elem_of_bind. exists (s, es). split; [done|].
  by apply elem_of_map_to_list.
Qed.

(** A guarded traversal returns once the depth allowed exceeds the number
    of targets that are not yet in the list; it only adds to the list. *)
Lemma guarded_walk_terminates stop em fuel : ∀ visited n,
  size (all_targets em ∖ list_to_set visited) < fuel →
  ∃ visited', guarded_walk stop fuel em visited n = Some visited'
    ∧ (list_to_set visited : gset string) ⊆ list_to_set visited'.
Proof.
  induction fuel as [|fuel IH]; intros visited n Hfuel; [lia|].
  simpl.
  apply (for_each_is_Some
           (λ v, (list_to_set visited : gset string) ⊆ list_to_set v)); [done|].
  intros v e He Hv.
  destruct (bool_decide _ || stop _) eqn:Hguard; [by eauto|].
  apply orb_false_iff in Hguard as [Hin%bool_decide_eq_false _].
  set (t := GraphEdge.target_node_id e) in *.
  assert (Ht : t ∈ all_targets em) by (eapply edge_all_targets, edge_of_elem, He).
  destruct (IH (v ++ [t]) t) as (v' & Hrun & Hv').
  - assert (all_targets em ∖ list_to_set (v ++ [t])
            ⊂ all_targets em ∖ list_to_set visited) as Hlt%subset_size; [|lia].
    rewrite list_to_set_app_L. simpl. split.
    + set_solver.
    + intros Hsub. assert (t ∈ all_targets em ∖ list_to_set visited) as Ht'.
      { apply elem_of_difference. split; [done|].
        intros Htv. apply Hin. apply Hv in Htv. by apply elem_of_list_to_set in Htv. }
      apply Hsub in Ht'. set_solver.
  - exists v'. split; [done|]. rewrite list_to_set_app_L in Hv'. set_solver.
Qed.

Lemma guarded_walk_S stop em fuel : ∀ visited n r,
  guarded_walk stop fuel em visited n = Some r →
  guarded_walk stop (S fuel) em visited n = Some r.
Proof.
  induction fuel as [|fuel IH]; intros visited n r; [done|].
  intros Hrun. simpl in Hrun. change (guarded_walk stop (S (S fuel)) em visited n)
    with (for_each (λ visited graph_edge,
        if bool_decide (GraphEdge.target_node_id graph_edge ∈ visited)
           || stop (GraphEdge.target_node_id graph_edge)
        then Some visited
        else guarded_walk stop (S fuel) em
               (visited ++ [GraphEdge.target_node_id graph_edge])
               (GraphEdge.target_node_id graph_edge))
      visited (edges_of em n)).
  eapply for_each_mono; [|exact Hrun].
  intros v e r'. simpl. destruct (_ || _); [done|]. apply IH.
Qed.

Lemma guarded_walk_mono stop em fuel fuel' visited n r :
  fuel ≤ fuel' →
  guarded_walk stop fuel em visited n = Some r →
  guarded_walk stop fuel' em visited n = Some r.
Proof.
  induction 1 as [|fuel' _ IH]; [done|]. intros Hrun. by apply guarded_walk_S, IH.
Qed.

(** ** Reachable closure *)

Section Closure.

Variable em : gmap string (list GraphEdge.t).

(** What one call of [_recursively_add_node_ids] does to the shared list:
    it appends nodes, keeps the list free of repetitions, appends only
    nodes reachable from [n], leaves every target of [n] in the list,
    and every appended node has all its targets in the list. *)
Lemma add_node_ids_spec fuel : ∀ ids n ids',
  _recursively_add_node_ids fuel ids em n = Some ids' →
  ∃ new, ids' = ids ++ new
    ∧ (NoDup ids → NoDup ids')
    ∧ (∀ m, m ∈ new → tc (edge em) n m)
    ∧ (∀ t, edge em n t → t ∈ ids')
    ∧ (∀ m, m ∈ new → ∀ t, edge em m t → t ∈ ids').
Proof.
  induction fuel as [|fuel IH]; intros ids n ids' Hrun; [done|].
  simpl in Hrun.
  assert (∃ new, ids' = ids ++ new
    ∧ (NoDup ids → NoDup ids')
    ∧ (∀ m, m ∈ new → tc (edge em) n m)
    ∧ (∀ e, e ∈ edges_of em n → GraphEdge.target_node_id e ∈ ids')
    ∧ (∀ m, m ∈ new → ∀ t, edge em m t → t ∈ ids')) as (new & ? & ? & ? & Ht & ?).
  { assert (Hes : ∀ e, e ∈ edges_of em n → edge em n (GraphEdge.target_node_id e))
      by apply edge_of_elem.
    revert Hrun Hes. generalize (edges_of em n) as es.
    intros es; revert ids. induction es as [|e es IHes]; intros ids Hrun Hes.
    - simpl in Hrun. injection Hrun as <-. exists []. rewrite app_nil_r.
      split_and!; [done|done|..]; intros ? H; by apply elem_of_nil in H.
    - simpl in Hrun. case_bool_decide as Hin.
      + simpl in Hrun. destruct (IHes ids Hrun) as (new & -> & Hnd & Hreach & Hts & Hcl).
        { intros e' He'. apply Hes. by right. }
        exists new. split_and!; try done.
        intros e' [->|He']%elem_of_cons; [|by apply Hts].
        apply elem_of_app. by left.
      + destruct (_recursively_add_node_ids fuel _ em _) as [ids1|] eqn:Hrec;
          simpl in Hrun; [|done].
        destruct (IH _ _ _ Hrec) as (new1 & -> & Hnd1 & Hreach1 & Hts1 & Hcl1).
        destruct (IHes _ Hrun) as (new2 & -> & Hnd2 & Hreach2 & Hts2 & Hcl2).
        { intros e' He'. apply Hes. by right. }
        assert (Het : edge em n (GraphEdge.target_node_id e)) by (apply Hes; left).
        exists ([GraphEdge.target_node_id e] ++ new1 ++ new2).
        split_and!.
        * by rewrite <- !app_assoc.
        * intros Hnd. apply Hnd2, Hnd1.
          apply NoDup_app. split_and!; [done| |apply NoDup_singleton].
          intros x Hx ->%list_elem_of_singleton. done.
        * intros m [Hm|[Hm|Hm]%elem_of_app]%elem_of_app.
          -- apply list_elem_of_singleton in Hm as ->. by apply tc_once.
          -- eapply tc_l; [exact Het | by apply Hreach1].
          -- by apply Hreach2.
        * intros e' [->|He']%elem_of_cons; [|by apply Hts2].
          rewrite !elem_of_app. left; left; right. by left.
        * intros m [Hm|[Hm|Hm]%elem_of_app]%elem_of_app t Hmt.
          -- apply list_elem_of_singleton in Hm as ->.
             apply elem_of_app. left. by apply Hts1.
          -- apply elem_of_app. left. by eapply Hcl1.
          -- by eapply Hcl2. }
  exists new. split_and!; try done.
  intros t (e & -> & He)%list_elem_of_fmap. by apply Ht.
Qed.

(** The list the traversal builds is the one the worklist formulation of
    depth-first discovery ends with. *)
Lemma add_node_ids_discovered fuel : ∀ ids n ids' pending result,
  _recursively_add_node_ids fuel ids em n = Some ids' →
  discovered em pending ids' result →
  discovered em (targets em n ++ pending) ids result.
Proof.
  induction fuel as [|fuel IH]; intros ids n ids' pending result Hrun Hrest; [done|].
  simpl in Hrun. unfold targets.
  revert ids Hrun. generalize (edges_of em n) as es.
  induction es as [|e es IHes]; intros ids Hrun; simpl in *.
  - by injection Hrun as ->.
  - case_bool_decide as Hin.
    + apply discovered_seen; [done|]. by apply IHes.
    + destruct (_recursively_add_node_ids fuel _ em _) as [ids1|] eqn:Hrec;
        simpl in Hrun; [|done].
      apply discovered_new; [done|].
      eapply IH; [done|]. by apply IHes.
Qed.

(** The worklist formulation determines its result. *)
Lemma discovered_functional pending visited r1 r2 :
  discovered em pending visited r1 → discovered em pending visited r2 → r1 = r2.
Proof.
  intros H1; revert r2. induction H1; intros r2 H2; inversion H2; subst; auto; done.
Qed.

(** A list that holds [root] and, with each node, the node's targets,
    holds everything reachable from [root]. *)
Lemma closed_contains_reachable (ids : list string) root :
  root ∈ ids →
  (∀ m, m ∈ ids → ∀ t, edge em m t → t ∈ ids) →
  ∀ n, rtc (edge em) root n → n ∈ ids.
Proof.
  intros Hroot Hcl n Hn. induction Hn as [|x y z Hxy _ IHn]; [done|].
  apply IHn. by eapply Hcl.
Qed.

End Closure.

(** ** Construction *)

Lemma truthy_str_Some o s : truthy_str o = Some s → o = Some s ∧ s ≠ "".
Proof.
  destruct o as [s'|]; simpl; [|done].
  case_bool_decide; [|done]. by intros [= ->].
Qed.

Lemma edge_insert_app em s es s' t :
  edge (<[s := edges_of em s ++ es]> em) s' t ↔
  edge em s' t ∨ (s' = s ∧ t ∈ GraphEdge.target_node_id <$> es).
Proof.
  unfold edge, targets, edges_of. destruct (decide (s = s')) as [->|Hne].
  - rewrite lookup_insert_eq. simpl. rewrite fmap_app, elem_of_app.
    split; (intros [?|?]; [by left|]); [by right | right; tauto].
  - rewrite lookup_insert_ne by done.
    split; [by left | intros [?|[-> _]]; done].
Qed.

Lemma edge_insert_nil em s s' t :
  em !! s = None → edge (<[s := []]> em) s' t ↔ edge em s' t.
Proof.
  intros Hs. unfold edge, targets, edges_of. destruct (decide (s = s')) as [->|Hne].
  - rewrite lookup_insert_eq, Hs. done.
  - by rewrite lookup_insert_ne.
Qed.

(** Every target of an edge in adjacency is recorded in [target_edge_ids]. *)
Lemma parse_edge_configs_targets edge_configs em tgs :
  parse_edge_configs edge_configs = (em, tgs) →
  ∀ s t, edge em s t → t ∈ tgs.
Proof.
  unfold parse_edge_configs.
  assert (Hgen : ∀ acc,
    (∀ s t, edge acc.1 s t → t ∈ acc.2) →
    ∀ s t, edge (foldl parse_edge_config acc edge_configs).1 s t
           → t ∈ (foldl parse_edge_config acc edge_configs).2).
  { induction edge_configs as [|ec ecs IH]; intros acc Hacc; [done|].
    simpl. apply IH. destruct acc as [em0 tgs0]; simpl in *.
    destruct (truthy_str (EdgeConfig.source ec)) as [src|]; [|done].
    set (em1 := if bool_decide (is_Some (em0 !! src)) then em0 else <[src:=[]]> em0).
    assert (Hem1 : ∀ s t, edge em1 s t → edge em0 s t).
    { intros s t. unfold em1. case_bool_decide as Hsrc; [done|].
      apply edge_insert_nil. by apply eq_None_not_Some. }
    destruct (truthy_str (EdgeConfig.target ec)) as [tgt|]; simpl.
    - intros s t [Hst|[-> Ht]]%edge_insert_app.
      + apply elem_of_union. left. by eapply Hacc, Hem1.
      + apply list_elem_of_singleton in Ht as ->. simpl.
        apply elem_of_union. right. by apply elem_of_singleton.
    - intros s t Hst. by eapply Hacc, Hem1. }
  intros Hparse s t. specialize (Hgen (∅, ∅)). rewrite Hparse in Hgen. apply Hgen.
  simpl. intros s' t'. unfold edge, targets, edges_of. rewrite lookup_empty. simpl.
  by intros ?%elem_of_nil.
Qed.

(** A root that passes line 155 is the truthy argument of [init], and no
    edge of adjacency leads to it. *)
Lemma root_found_inv em tgs node_configs root_node_id root :
  (∀ s t, edge em s t → t ∈ tgs) →
  root_found (fetch_root_node root_node_id (fetch_root_node_configs tgs node_configs))
    (NodeConfig.id <$> fetch_root_node_configs tgs node_configs) = Some root →
  truthy_str root_node_id = Some root ∧ ∀ s, ¬ edge em s root.
Proof.
  intros Htgs Hroot. unfold root_found in Hroot.
  destruct (fetch_root_node _ _) as [|s|] eqn:Hfetch; [done| |done].
  case_bool_decide as Hs; [|done]. injection Hroot as ->. destruct Hs as [Hne Hin].
  unfold fetch_root_node in Hfetch.
  destruct (truthy_str root_node_id) as [s'|] eqn:Htr; [|by destruct (List.find _ _)].
  injection Hfetch as ->. split; [done|].
  intros s Hedge.
  apply list_elem_of_fmap in Hin as (c & Hc & Hcin).
  unfold fetch_root_node_configs in Hcin.
  apply list_elem_of_In, filter_In in Hcin as [_ Hcin].
  rewrite <- Hc in Hcin. simpl in Hcin.
  case_bool_decide; [|done]. case_bool_decide as Hnt; [|done].
  apply Hnt. by eapply Htgs.
Qed.

(** What a successful [init] did. *)
Lemma init_Ok_inv fuel graph_config variable_pool root_node_id g :
  init fuel graph_config variable_pool root_node_id = Some (Ok g) →
  ∃ st,
    root_node_id = Some (Graph.root_node_id g)
    ∧ Graph.root_node_id g ≠ ""
    ∧ (∀ s, ¬ edge (config_edge_mapping graph_config) s (Graph.root_node_id g))
    ∧ Graph.edge_mapping g = config_edge_mapping graph_config
    ∧ _recursively_add_node_ids fuel [Graph.root_node_id g]
        (Graph.edge_mapping g) (Graph.root_node_id g) = Some (Graph.node_ids g)
    ∧ _recursively_add_parallels fuel (Graph.edge_mapping g) (Graph.root_node_id g)
        (mk_parallels ∅ ∅ 0) = Some st
    ∧ Graph.parallel_mapping g = parallel_mapping st
    ∧ Graph.node_parallel_mapping g = node_parallel_mapping st
    ∧ Graph.run_state g = GraphState.mk ∅ variable_pool ∅.
Proof.
  unfold init, config_edge_mapping.
  destruct (parse_edge_configs _) as [em tgs] eqn:Hparse.
  destruct (GraphConfig.nodes graph_config) as [[|nc ncs]|]; [done| |done].
  destruct (root_found _ _) as [root|] eqn:Hroot; [|done].
  destruct (_recursively_add_node_ids _ _ _ _) as [ids|] eqn:Hids; simpl; [|done].
  destruct (_recursively_add_parallels _ _ _ _) as [st|] eqn:Hpar; simpl; [|done].
  intros [= <-]. simpl. exists st.
  eapply root_found_inv in Hroot as [Htr Hno];
    [|by eapply parse_edge_configs_targets].
  apply truthy_str_Some in Htr as [-> Hne]. by split_and!.
Qed.

(** Without a truthy [root_node_id] argument [init] builds no graph. *)
Lemma init_no_root_never_Ok fuel graph_config variable_pool root_node_id g :
  truthy_str root_node_id = None →
  init fuel graph_config variable_pool root_node_id ≠ Some (Ok g).
Proof.
  intros Hr Hinit. apply init_Ok_inv in Hinit as (st & -> & Hne & _).
  simpl in Hr. by case_bool_decide.
Qed.

(** C6. On every configuration on which [init] returns a graph, [node_ids]
    has no repeated id, holds exactly the nodes reachable from
    [root_node_id] along the edges of [edge_mapping], and lists them in the
    order of first discovery of a depth-first traversal that starts at the
    root and follows each edge list in stored order. *)
Theorem init_node_ids_closure fuel graph_config variable_pool root_node_id g :
  init fuel graph_config variable_pool root_node_id = Some (Ok g) →
  NoDup (Graph.node_ids g)
  ∧ (∀ n, n ∈ Graph.node_ids g
          ↔ rtc (edge (Graph.edge_mapping g)) (Graph.root_node_id g) n)
  ∧ discovered (Graph.edge_mapping g)
      (targets (Graph.edge_mapping g) (Graph.root_node_id g))
      [Graph.root_node_id g] (Graph.node_ids g).
Proof.
  intros (st & _ & _ & _ & _ & Hids & _)%init_Ok_inv.
  destruct (add_node_ids_spec _ _ _ _ _ Hids) as (new & Heq & Hnd & Hreach & Hts & Hcl).
  split_and!.
  - apply Hnd, NoDup_singleton.
  - intros n. split.
    + rewrite Heq. intros [->%list_elem_of_singleton|Hn]%elem_of_app; [done|].
      by apply tc_rtc, Hreach.
    + apply closed_contains_reachable.
      * rewrite Heq. apply elem_of_app. left. by left.
      * intros m Hm t Hmt. rewrite Heq in Hm.
        apply elem_of_app in Hm as [->%list_elem_of_singleton|Hm]; [by apply Hts|].
        by eapply Hcl.
  - rewrite <- (app_nil_r (targets _ _)).
    eapply add_node_ids_discovered; [done|]. constructor.
Qed.

(** ** Parallel regions: termination *)

Lemma fetch_all_terminates em fuel parallel_node_ids :
  size (all_targets em) < fuel →
  is_Some (_fetch_all_node_ids_in_parallels fuel em parallel_node_ids).
Proof.
  intros Hfuel. unfold _fetch_all_node_ids_in_parallels.
  assert (Hwalk : ∀ stop visited n, is_Some (guarded_walk stop fuel em visited n)).
  { intros stop visited n.
    destruct (guarded_walk_terminates stop em fuel visited n) as (v & -> & _); [|done].
    eapply Nat.le_lt_trans; [|exact Hfuel]. apply subseteq_size. set_solver. }
  destruct (for_each_is_Some (λ _, True)
    (λ routes_node_ids parallel_node_id,
        route ← _recursively_fetch_routes fuel em parallel_node_id [];
        Some (odict_set routes_node_ids parallel_node_id route))
    [] parallel_node_ids) as (routes & -> & _); [done| |].
  { intros d b _ _. rewrite fetch_routes_guarded_walk.
    destruct (Hwalk (λ _, false) [] b) as [r ->]. simpl. eauto. }
  simpl. destruct (leaf_and_merge_branch_node_ids em routes) as [leaf merge].
  match goal with |- is_Some (for_each ?f ?s ?l) =>
    destruct (for_each_is_Some (λ _, True) f s l) as (r & -> & _); [done| |done] end.
  intros d [b ids] _ _. destruct (odict_get _ b) as [m|]; [|by eauto].
  rewrite add_parallel_node_ids_guarded_walk.
  destruct (Hwalk (λ t, bool_decide (t = m)) [b] b) as [r ->]. simpl. eauto.
Qed.

Lemma add_parallel_at_terminates em fuel n st :
  size (all_targets em) < fuel → is_Some (add_parallel_at fuel em n st).
Proof.
  intros Hfuel. unfold add_parallel_at.
  case_bool_decide; [|by eauto].
  destruct (GraphEdge.target_node_id <$> _) as [|b bs]; [by eauto|].
  destruct (fetch_all_terminates em fuel (b :: bs)) as [d ->]; [lia|].
  simpl. eauto.
Qed.

Section Acyclic.

Variable em : gmap string (list GraphEdge.t).
Variable root : string.
Hypothesis acyclic : ∀ n, rtc (edge em) root n → ¬ tc (edge em) n n.

Let nodes : gset string := {[root]} ∪ all_targets em.

Lemma reachable_in_nodes n : rtc (edge em) root n → n ∈ nodes.
Proof.
  intros [->|(m & _ & Hmn)]%rtc_inv_r; unfold nodes.
  - set_solver.
  - apply edge_all_targets in Hmn. set_solver.
Qed.

(** The detection walk has no visited list; on a graph without cycles its
    call stack is a simple path, which bounds its depth. *)
Lemma add_parallels_terminates fuel : ∀ n (stack : gset string) st,
  rtc (edge em) root n →
  (∀ p, p ∈ stack → tc (edge em) p n) →
  size (nodes ∖ stack) + size (all_targets em) < fuel →
  is_Some (_recursively_add_parallels fuel em n st).
Proof.
  induction fuel as [|fuel IH]; intros n stack st Hn Hstack Hfuel; [lia|].
  assert (Hn_stack : n ∉ stack).
  { intros Hin. by apply (acyclic n Hn), Hstack. }
  assert (Hdecr : size (nodes ∖ (stack ∪ {[n]})) < size (nodes ∖ stack)).
  { apply subset_size. split; [set_solver|].
    intros Hsub. assert (n ∈ nodes ∖ stack) as Hn'.
    { apply elem_of_difference. split; [by apply reachable_in_nodes | done]. }
    apply Hsub in Hn'. set_solver. }
  simpl.
  destruct (add_parallel_at_terminates em fuel n st) as [st1 ->]; [lia|].
  simpl.
  match goal with |- is_Some (for_each ?f ?s ?l) =>
    destruct (for_each_is_Some (λ _, True) f s l) as (r & -> & _); [done| |done] end.
  intros st2 e He _.
  assert (Hne : edge em n (GraphEdge.target_node_id e)) by by apply edge_of_elem.
  destruct (IH (GraphEdge.target_node_id e) (stack ∪ {[n]}) st2) as [r ->].
  - by eapply rtc_r.
  - intros p [Hp| ->%elem_of_singleton]%elem_of_union.
    + eapply tc_r; [by apply Hstack | done].
    + by apply tc_once.
  - lia.
  - eauto.
Qed.

End Acyclic.

(** ** A deeper call stack changes no result *)

Lemma fetch_all_mono em fuel fuel' parallel_node_ids r :
  fuel ≤ fuel' →
  _fetch_all_node_ids_in_parallels fuel em parallel_node_ids = Some r →
  _fetch_all_node_ids_in_parallels fuel' em parallel_node_ids = Some r.
Proof.
  intros Hle. unfold _fetch_all_node_ids_in_parallels.
  match goal with |- ?a ≫= _ = _ → _ => destruct a as [routes|] eqn:Hroutes end;
    simpl; [|done].
  erewrite for_each_mono; [| |exact Hroutes]; simpl.
  - destruct (leaf_and_merge_branch_node_ids em routes) as [leaf merge].
    apply for_each_mono. intros d [b ids] d'.
    destruct (odict_get _ b) as [m|]; [|done].
    rewrite !add_parallel_node_ids_guarded_walk.
    destruct (guarded_walk _ fuel _ _ _) as [v|] eqn:Hwalk; simpl; [|done].
    by rewrite (guarded_walk_mono _ _ _ _ _ _ _ Hle Hwalk).
  - intros d b d'. rewrite !fetch_routes_guarded_walk.
    destruct (guarded_walk _ fuel _ _ _) as [v|] eqn:Hwalk; simpl; [|done].
    by rewrite (guarded_walk_mono _ _ _ _ _ _ _ Hle Hwalk).
Qed.

Lemma add_parallel_at_mono em fuel fuel' n st r :
  fuel ≤ fuel' →
  add_parallel_at fuel em n st = Some r →
  add_parallel_at fuel' em n st = Some r.
Proof.
  intros Hle. unfold add_parallel_at. case_bool_decide; [|done].
  destruct (GraphEdge.target_node_id <$> _) as [|b bs]; [done|].
  destruct (_fetch_all_node_ids_in_parallels fuel _ _) as [d|] eqn:Hd; simpl; [|done].
  by rewrite (fetch_all_mono _ _ _ _ _ Hle Hd).
Qed.

Lemma add_parallels_mono em fuel : ∀ fuel' n st r,
  fuel ≤ fuel' →
  _recursively_add_parallels fuel em n st = Some r →
  _recursively_add_parallels fuel' em n st = Some r.
Proof.
  induction fuel as [|fuel IH]; intros fuel' n st r Hle; [done|].
  destruct fuel' as [|fuel']; [lia|]. apply le_S_n in Hle.
  simpl.
  destruct (add_parallel_at fuel em n st) as [st1|] eqn:Hfan; simpl; [|done].
  rewrite (add_parallel_at_mono _ _ _ _ _ _ Hle Hfan). simpl.
  apply for_each_mono. intros st2 e st3. by apply IH.
Qed.

Lemma init_mono fuel fuel' graph_config variable_pool root_node_id r :
  fuel ≤ fuel' →
  init fuel graph_config variable_pool root_node_id = Some r →
  init fuel' graph_config variable_pool root_node_id = Some r.
Proof.
  intros Hle. unfold init.
  destruct (parse_edge_configs _) as [em tgs].
  destruct (GraphConfig.nodes graph_config) as [[|nc ncs]|]; [done| |done].
  destruct (root_found _ _) as [root|]; [|done].
  rewrite !add_node_ids_guarded_walk.
  destruct (guarded_walk _ fuel _ _ _) as [ids|] eqn:Hids; simpl; [|done].
  rewrite (guarded_walk_mono _ _ _ _ _ _ _ Hle Hids). simpl.
  destruct (_recursively_add_parallels fuel _ _ _) as [st|] eqn:Hst; simpl; [|done].
  by rewrite (add_parallels_mono _ _ _ _ _ _ Hle Hst).
Qed.

(** ** Termination of construction *)

(** C3. On every configuration whose graph, as far as it is reachable from
    the root, has no cycle other than through edges that lead back to the
    root, [init] terminates: from some depth of the call stack on it
    returns a graph or raises, and none of its traversals recurses
    forever. *)
Theorem init_terminates graph_config variable_pool root_node_id :
  (∀ root, truthy_str root_node_id = Some root →
           loop_back_tolerated (config_edge_mapping graph_config) root) →
  ∃ fuel0, ∀ fuel, fuel0 ≤ fuel →
    is_Some (init fuel graph_config variable_pool root_node_id).
Proof.
  unfold init, config_edge_mapping. intros Htol.
  destruct (parse_edge_configs _) as [em tgs] eqn:Hparse. simpl in Htol.
  destruct (GraphConfig.nodes graph_config) as [[|nc ncs]|].
  { exists 0. intros; by eexists. }
  2: { exists 0. intros; by eexists. }
  destruct (root_found _ _) as [root|] eqn:Hroot.
  2: { exists 0. intros; by eexists. }
  eapply root_found_inv in Hroot as [Htr Hno];
    [|by eapply parse_edge_configs_targets].
  assert (Hacyc : ∀ n, rtc (edge em) root n → ¬ tc (edge em) n n).
  { intros n Hn Hcyc. apply (Htol root Htr n Hn).
    assert (Hgen : ∀ a b, tc (edge em) a b
                          → tc (λ s t, edge em s t ∧ t ≠ root) a b); [|by apply Hgen].
    clear n Hn Hcyc. intros a b Hcyc.
    induction Hcyc as [x y Hxy|x y z Hxy _ IH].
    - apply tc_once. split; [exact Hxy|]. intros ->. by eapply Hno.
    - eapply tc_l; [|exact IH]. simpl. split; [exact Hxy|]. intros ->. by eapply Hno. }
  exists (S (size ({[root]} ∪ all_targets em) + size (all_targets em))).
  intros fuel Hfuel.
  rewrite add_node_ids_guarded_walk.
  destruct (guarded_walk_terminates (λ _, false) em fuel [root] root) as (ids & -> & _).
  { assert (size (all_targets em ∖ list_to_set [root]) ≤ size (all_targets em))
      by (apply subseteq_size; set_solver). lia. }
  simpl.
  destruct (add_parallels_terminates em root Hacyc fuel root ∅ (mk_parallels ∅ ∅ 0))
    as [st ->]; [done|set_solver| |by simpl; eauto].
  assert (size (({[root]} ∪ all_targets em) ∖ ∅) ≤ size ({[root]} ∪ all_targets em))
    by (apply subseteq_size; set_solver). lia.
Qed.

(** ** Root resolution *)

(** C1. With nodes A (start), B, C, the single edge A→B and no
    [root_node_id], [init] does not resolve A as the root: line 152 stores
    the node's configuration, not its id, and line 155 raises. *)
Theorem init_start_node_not_resolved fuel variable_pool :
  init fuel start_config variable_pool None
  = Some (Raise (ValueError "Root node id {root_node_id} not found in the graph")).
Proof. reflexivity. Qed.

(** With the root given, the same configuration builds the graph. *)
Lemma init_start_node_given k variable_pool :
  ∃ g, init (3 + k) start_config variable_pool (Some "A") = Some (Ok g)
       ∧ Graph.root_node_id g = "A" ∧ Graph.node_ids g = ["A"; "B"].
Proof.
  eexists. split.
  - apply (init_mono 3); [lia|]. vm_compute. reflexivity.
  - done.
Qed.

(** ** Adjacency *)

(** C4. An edge entry of source S without a target is not dropped without
    effect: [init] leaves S in [edge_mapping] with an empty list. *)
Theorem init_dangling_edge_keeps_key k variable_pool :
  ∃ g, init (S k) dangling_config variable_pool (Some "S") = Some (Ok g)
       ∧ Graph.edge_mapping g !! "S" = Some [].
Proof. eexists. split; [reflexivity|]. reflexivity. Qed.

(** X2. The keys of the adjacency [init] builds are the truthy sources of the
    edge entries, whether or not the entry has a target. *)
Lemma config_edge_mapping_dom graph_config :
  dom (config_edge_mapping graph_config)
  = list_to_set (omap (λ edge_config, truthy_str (EdgeConfig.source edge_config))
                   (default [] (GraphConfig.edges graph_config))).
Proof.
  unfold config_edge_mapping, parse_edge_configs.
  generalize (default [] (GraphConfig.edges graph_config)) as edge_configs.
  assert (Hgen : ∀ edge_configs acc,
    dom (foldl parse_edge_config acc edge_configs).1
    = dom acc.1 ∪ list_to_set
        (omap (λ edge_config, truthy_str (EdgeConfig.source edge_config)) edge_configs)).
  { induction edge_configs as [|ec ecs IH]; intros [em0 tgs0]; simpl.
    - set_solver.
    - rewrite IH. destruct (truthy_str (EdgeConfig.source ec)) as [src|]; simpl; [|done].
      assert (dom (if bool_decide (is_Some (em0 !! src)) then em0 else <[src:=[]]> em0)
              = dom em0 ∪ {[src]}) as Hdom.
      { case_bool_decide as Hsrc; [|rewrite dom_insert_L; set_solver].
        apply elem_of_dom in Hsrc. set_solver. }
      destruct (truthy_str (EdgeConfig.target ec)); simpl.
      + rewrite dom_insert_L, Hdom. set_solver.
      + rewrite Hdom. set_solver. }
  intros edge_configs. rewrite Hgen. simpl. rewrite dom_empty_L. set_solver.
Qed.

(** An edge entry with a falsy [source] changes nothing. *)
Lemma parse_edge_config_no_source acc edge_config :
  truthy_str (EdgeConfig.source edge_config) = None →
  parse_edge_config acc edge_config = acc.
Proof. intros H. unfold parse_edge_config. destruct acc. by rewrite H. Qed.

(** ** Leaves *)

(** C9. On the graph [init] builds from [dangling_config], node S is in
    [node_ids] and has no outgoing edge, and [get_leaf_node_ids] does not
    return it. *)
Theorem get_leaf_node_ids_misses_empty_list k variable_pool :
  ∃ g, init (S k) dangling_config variable_pool (Some "S") = Some (Ok g)
       ∧ "S" ∈ Graph.node_ids g
       ∧ targets (Graph.edge_mapping g) "S" = []
       ∧ get_leaf_node_ids g = [].
Proof.
  eexists. split; [reflexivity|]. split_and!; [|reflexivity..].
  simpl. by left.
Qed.

(** ** Parallel regions: scope linkage *)

(** The detection walk issues identifiers in increasing order and never
    touches the record of a parallel it created earlier. *)
Lemma add_parallels_preserves em fuel : ∀ n st st',
  _recursively_add_parallels fuel em n st = Some st' →
  uuid_issued st ≤ uuid_issued st'
  ∧ ∀ i, i < uuid_issued st → parallel_mapping st' !! i = parallel_mapping st !! i.
Proof.
  induction fuel as [|fuel IH]; intros n st st'; [done|].
  simpl.
  destruct (add_parallel_at fuel em n st) as [st1|] eqn:Hfan; simpl; [|done].
  assert (uuid_issued st ≤ uuid_issued st1
          ∧ ∀ i, i < uuid_issued st
                 → parallel_mapping st1 !! i = parallel_mapping st !! i) as [Hle1 Hpm1].
  { revert Hfan. unfold add_parallel_at. case_bool_decide; [|by intros [= <-]].
    destruct (GraphEdge.target_node_id <$> _) as [|b bs]; [by intros [= <-]|].
    destruct (_fetch_all_node_ids_in_parallels _ _ _) as [d|]; simpl; [|done].
    intros [= <-]. simpl. split; [lia|].
    intros i Hi. rewrite lookup_insert_ne; [done|lia]. }
  intros Hloop.
  apply (for_each_inv
           (λ s, uuid_issued st ≤ uuid_issued s
                 ∧ ∀ i, i < uuid_issued st
                        → parallel_mapping s !! i = parallel_mapping st !! i))
    in Hloop; [done|done|].
  intros s e s' _ [Hle Hpm] Hstep. apply IH in Hstep as [Hle' Hpm'].
  split; [lia|]. intros i Hi. rewrite Hpm' by lia. by apply Hpm.
Qed.

Lemma parent_of_mapped npm parallel_node_ids :
  (∀ b, b ∈ parallel_node_ids → is_Some (npm !! b)) →
  parent_of npm parallel_node_ids = head parallel_node_ids ≫= λ b, npm !! b.
Proof.
  intros Hall. unfold parent_of.
  destruct (forallb _ _) eqn:Hforall; [done|].
  apply not_true_iff_false in Hforall. exfalso. apply Hforall.
  apply forallb_forall. intros b Hb%list_elem_of_In. by apply bool_decide_eq_true, Hall.
Qed.

Lemma parent_of_unmapped npm parallel_node_ids b :
  b ∈ parallel_node_ids → npm !! b = None →
  parent_of npm parallel_node_ids = None.
Proof.
  intros Hb Hnone. unfold parent_of.
  destruct (forallb _ _) eqn:Hforall; [|done].
  rewrite forallb_forall in Hforall. apply list_elem_of_In, Hforall in Hb.
  apply bool_decide_eq_true in Hb. rewrite Hnone in Hb. by destruct Hb.
Qed.

(** C2, as the code has it. At every fan-out the detection walk finds (a
    node with more than one outgoing edge, at least one of them
    conditioned), the record of the new parallel names as parent the scope
    of the first branch root when every branch root has an entry in
    [node_parallel_mapping], whether or not the entries agree, and names no
    parent when some branch root has no entry. *)
Theorem fan_out_parent fuel em start_node_id st st' :
  _recursively_add_parallels fuel em start_node_id st = Some st' →
  1 < length (edges_of em start_node_id) →
  branch_roots em start_node_id ≠ [] →
  ∃ parent,
    parallel_mapping st' !! uuid_issued st
      = Some (GraphParallel.mk (uuid_issued st) parent)
    ∧ ((∀ b, b ∈ branch_roots em start_node_id
             → is_Some (node_parallel_mapping st !! b))
       → parent = head (branch_roots em start_node_id)
                    ≫= λ b, node_parallel_mapping st !! b)
    ∧ (∀ b, b ∈ branch_roots em start_node_id
            → node_parallel_mapping st !! b = None
            → parent = None).
Proof.
  intros Hrun Hlen Hroots.
  exists (parent_of (node_parallel_mapping st) (branch_roots em start_node_id)).
  split; [|split; [apply parent_of_mapped | apply parent_of_unmapped]].
  destruct fuel as [|fuel]; [done|]. simpl in Hrun. unfold add_parallel_at in Hrun.
  rewrite bool_decide_eq_true_2 in Hrun by done.
  fold (branch_roots em start_node_id) in Hrun.
  destruct (branch_roots em start_node_id) as [|b bs] eqn:Hbr; [done|].
  destruct (_fetch_all_node_ids_in_parallels _ _ _) as [d|]; simpl in Hrun; [|done].
  apply (for_each_inv
           (λ s, parallel_mapping s !! uuid_issued st
                 = Some (GraphParallel.mk (uuid_issued st)
                           (parent_of (node_parallel_mapping st) (b :: bs)))
                 ∧ uuid_issued st < uuid_issued s)) in Hrun; [by destruct Hrun| |].
  - simpl. split; [by rewrite lookup_insert_eq | lia].
  - intros s e s' _ [Hpm Hlt] Hstep.
    apply add_parallels_preserves in Hstep as [Hle Hkeep].
    split; [|lia]. by rewrite Hkeep.
Qed.

Lemma fan_out_parent_witness :
  ∃ parent,
    parallel_mapping
      {| parallel_mapping :=
           <[2 := GraphParallel.mk 2 (Some 0)]> (parallel_mapping crossed_at_N);
         node_parallel_mapping := {["X" := 2; "Y" := 2]};
         uuid_issued := 3 |} !! uuid_issued crossed_at_N
      = Some (GraphParallel.mk (uuid_issued crossed_at_N) parent)
    ∧ ((∀ b, b ∈ branch_roots (config_edge_mapping crossed_config) "N"
             → is_Some (node_parallel_mapping crossed_at_N !! b))
       → parent = head (branch_roots (config_edge_mapping crossed_config) "N")
                    ≫= λ b, node_parallel_mapping crossed_at_N !! b)
    ∧ (∀ b, b ∈ branch_roots (config_edge_mapping crossed_config) "N"
            → node_parallel_mapping crossed_at_N !! b = None
            → parent = None).
Proof.
  apply (fan_out_parent 3 (config_edge_mapping crossed_config) "N" crossed_at_N).
  - vm_compute. reflexivity.
  - vm_compute. lia.
  - vm_compute. discriminate.
Defined.

(** C2, as the specification states it, fails on [crossed_config].  The
    walk from R creates parallel 0 for X, visits X, creates parallel 1 for Y
    at Q, visits Y, and arrives at N, whose branch roots X and Y lie in
    the two different scopes 0 and 1: the specification asks for a
    top-level scope, the code makes the scope of X the parent. *)
Lemma crossed_scopes_get_parent :
  add_parallel_at 3 (config_edge_mapping crossed_config) "R" (mk_parallels ∅ ∅ 0)
    = Some crossed_at_Q
  ∧ _recursively_add_parallels 3 (config_edge_mapping crossed_config) "X" crossed_at_Q
    = Some crossed_at_Q
  ∧ add_parallel_at 3 (config_edge_mapping crossed_config) "Q" crossed_at_Q
    = Some crossed_at_N
  ∧ _recursively_add_parallels 3 (config_edge_mapping crossed_config) "Y" crossed_at_N
    = Some crossed_at_N
  ∧ branch_roots (config_edge_mapping crossed_config) "N" = ["X"; "Y"]
  ∧ node_parallel_mapping crossed_at_N !! "X" = Some 0
  ∧ node_parallel_mapping crossed_at_N !! "Y" = Some 1
  ∧ spec_parent_of (node_parallel_mapping crossed_at_N)
      (branch_roots (config_edge_mapping crossed_config) "N") = None
  ∧ (∃ st', add_parallel_at 3 (config_edge_mapping crossed_config) "N" crossed_at_N
              = Some st'
            ∧ parallel_mapping st' !! 2 = Some (GraphParallel.mk 2 (Some 0)))
  ∧ (∃ g, init 4 crossed_config (VariablePoolRef 0) (Some "R") = Some (Ok g)
          ∧ Graph.parallel_mapping g
            = {[0 := GraphParallel.mk 0 None; 1 := GraphParallel.mk 1 None;
                2 := GraphParallel.mk 2 (Some 0)]}).
Proof.
  split_and!; try (vm_compute; reflexivity).
  - eexists. split; [vm_compute; reflexivity|]. reflexivity.
  - eexists. split; [vm_compute; reflexivity|]. vm_compute. reflexivity.
Qed.

(** The fan-out of B in [nested_config] lies inside branch B of the fan-out
    of A, and its scope gets no parent: line 333 iterates the dictionary
    [in_branch_node_ids], which yields the branch roots only, so B1 and B2
    have no entry when the walk arrives at B. *)
Lemma nested_fan_out_gets_no_parent :
  ∃ g, init 4 nested_config (VariablePoolRef 0) (Some "A") = Some (Ok g)
       ∧ Graph.node_parallel_mapping g !! "B" = Some 0
       ∧ Graph.node_parallel_mapping g !! "B1" = Some 1
       ∧ Graph.node_parallel_mapping g !! "B2" = Some 1
       ∧ Graph.parallel_mapping g !! 1 = Some (GraphParallel.mk 1 None).
Proof.
  eexists. split; [vm_compute; reflexivity|]. split_and!; reflexivity.
Qed.

(** C5. From A→B (selector "x"), A→C (selector "y"), B→D, C→D with root A,
    [init] creates exactly one parallel, [node_parallel_mapping] maps
    exactly B and C to it, and D has no entry. *)
Theorem init_diamond_parallel fuel variable_pool :
  3 ≤ fuel →
  ∃ g, init fuel diamond_config variable_pool (Some "A") = Some (Ok g)
       ∧ Graph.parallel_mapping g = {[0 := GraphParallel.mk 0 None]}
       ∧ Graph.node_parallel_mapping g = {["B" := 0; "C" := 0]}
       ∧ Graph.node_parallel_mapping g !! "D" = None.
Proof.
  intros Hfuel. eexists. split.
  - apply (init_mono 3); [done|]. vm_compute. reflexivity.
  - split_and!; vm_compute; reflexivity.
Qed.

Lemma init_diamond_parallel_witness :
  ∃ g, init 5 diamond_config (VariablePoolRef 0) (Some "A") = Some (Ok g)
       ∧ Graph.parallel_mapping g = {[0 := GraphParallel.mk 0 None]}
       ∧ Graph.node_parallel_mapping g = {["B" := 0; "C" := 0]}
       ∧ Graph.node_parallel_mapping g !! "D" = None.
Proof. apply (init_diamond_parallel 5 (VariablePoolRef 0)). lia. Defined.

(** ** Execution frontier *)

(** C7. When no route is recorded, [next_node_ids] returns exactly one
    entry: the root, with no parallel. *)
Theorem next_node_ids_no_routes check g :
  GraphState.routes (Graph.run_state g) = ∅ →
  next_node_ids check g = Ok [NextGraphNode.mk (Graph.root_node_id g) None].
Proof. intros Hroutes. unfold next_node_ids. by rewrite bool_decide_eq_true_2. Qed.

Lemma next_node_ids_no_routes_witness :
  next_node_ids check_pass fresh_graph
  = Ok [NextGraphNode.mk (Graph.root_node_id fresh_graph) None].
Proof. apply (next_node_ids_no_routes check_pass fresh_graph). reflexivity. Defined.

Lemma foldl_ext {A B} (f g : A → B → A) a l :
  (∀ a x, f a x = g a x) → foldl f a l = foldl g a l.
Proof.
  intros Hfg; revert a; induction l as [|x l IH]; intros a; simpl; [done|].
  by rewrite Hfg, IH.
Qed.

Lemma route_final_graph_edges_routes g routes' root_routes :
  dom routes' = dom (GraphState.routes (Graph.run_state g)) →
  route_final_graph_edges (set_routes g routes') root_routes
  = route_final_graph_edges g root_routes.
Proof.
  intros Hdom. unfold route_final_graph_edges. simpl.
  assert (Hin : ∀ t, is_Some (routes' !! t)
                     ↔ is_Some (GraphState.routes (Graph.run_state g) !! t)).
  { intros t. by rewrite <- !elem_of_dom, Hdom. }
  apply foldl_ext. intros acc route.
  destruct (Graph.edge_mapping g !! _) as [[|e es]|]; [done| |done].
  apply foldl_ext. intros acc' edge. by rewrite (bool_decide_ext _ _ (Hin _)).
Qed.

Lemma for_result_ext {A S} (f g : S → A → result S) s l :
  (∀ s x, f s x = g s x) → for_result f s l = for_result g s l.
Proof.
  intros Hfg; revert s; induction l as [|x l IH]; intros s; simpl; [done|].
  rewrite Hfg. destruct (g s x); simpl; [apply IH | done].
Qed.

(** C10. When routes are recorded but none under the root's key,
    [next_node_ids] raises [KeyError]; and of [routes] it reads the list
    under the root's key and the set of keys only: two route maps with the
    same keys and the same list under the root give the same frontier
    (with condition handlers that answer alike). *)
Theorem next_node_ids_reads_root_routes check :
  (∀ g,
     GraphState.routes (Graph.run_state g) ≠ ∅ →
     GraphState.routes (Graph.run_state g) !! Graph.root_node_id g = None →
     next_node_ids check g = Raise (KeyError (NodeKey (Graph.root_node_id g))))
  ∧ (∀ g routes',
       dom routes' = dom (GraphState.routes (Graph.run_state g)) →
       routes' !! Graph.root_node_id g
         = GraphState.routes (Graph.run_state g) !! Graph.root_node_id g →
       (∀ run_condition s t,
          check run_condition s t (set_routes g routes') = check run_condition s t g) →
       next_node_ids check (set_routes g routes') = next_node_ids check g).
Proof.
  split.
  - intros g Hne Hroot. unfold next_node_ids.
    rewrite bool_decide_eq_false_2 by done. by rewrite Hroot.
  - intros g routes' Hdom Hroot Hcheck. unfold next_node_ids.
    change (GraphState.routes (Graph.run_state (set_routes g routes'))) with routes'.
    change (Graph.root_node_id (set_routes g routes')) with (Graph.root_node_id g).
    assert (Hempty : routes' = ∅ ↔ GraphState.routes (Graph.run_state g) = ∅).
    { by rewrite <- !dom_empty_iff_L, Hdom. }
    rewrite (bool_decide_ext _ _ Hempty). case_bool_decide; [done|].
    rewrite Hroot.
    destruct (GraphState.routes (Graph.run_state g) !! Graph.root_node_id g)
      as [root_routes|]; [|done].
    rewrite route_final_graph_edges_routes by done.
    apply for_result_ext. intros acc e.
    destruct (GraphEdge.run_condition e) as [rc|]; [by rewrite Hcheck | done].
Qed.

Lemma next_node_ids_reads_root_routes_witness :
  next_node_ids check_pass (set_routes fresh_graph {["B" := []]})
  = Raise (KeyError (NodeKey "A")).
Proof.
  apply (proj1 (next_node_ids_reads_root_routes check_pass)
           (set_routes fresh_graph {["B" := []]})).
  - simpl. apply insert_non_empty.
  - reflexivity.
Defined.

(** ** Dynamic edge insertion *)

Lemma set_edge_mapping_id g : set_edge_mapping g (Graph.edge_mapping g) = g.
Proof. by destruct g. Qed.

(** C8. [add_extra_edge] never raises.  When [source_node_id] or
    [target_node_id] is not in [node_ids], or an edge from
    [source_node_id] to [target_node_id] exists (whatever the conditions),
    the graph is left as it was; otherwise exactly one edge is appended to
    the list of [source_node_id] and nothing else changes. *)
Theorem add_extra_edge_spec g source_node_id target_node_id run_condition :
  (∃ g', add_extra_edge g source_node_id target_node_id run_condition = Ok g')
  ∧ (source_node_id ∉ Graph.node_ids g
     ∨ target_node_id ∉ Graph.node_ids g
     ∨ target_node_id ∈ targets (Graph.edge_mapping g) source_node_id →
     add_extra_edge g source_node_id target_node_id run_condition = Ok g)
  ∧ (source_node_id ∈ Graph.node_ids g →
     target_node_id ∈ Graph.node_ids g →
     target_node_id ∉ targets (Graph.edge_mapping g) source_node_id →
     add_extra_edge g source_node_id target_node_id run_condition
     = Ok (set_edge_mapping g
             (<[source_node_id :=
                  edges_of (Graph.edge_mapping g) source_node_id
                  ++ [GraphEdge.mk source_node_id target_node_id run_condition]]>
                (Graph.edge_mapping g)))).
Proof.
  assert (Hnoop : source_node_id ∉ Graph.node_ids g
     ∨ target_node_id ∉ Graph.node_ids g
     ∨ target_node_id ∈ targets (Graph.edge_mapping g) source_node_id →
     add_extra_edge g source_node_id target_node_id run_condition = Ok g).
  { intros Hcase. unfold add_extra_edge. case_bool_decide as Hids; [done|].
    destruct Hcase as [?|[?|Hdup]]; [tauto|tauto|].
    unfold targets, edges_of in Hdup.
    destruct (Graph.edge_mapping g !! source_node_id) as [es|] eqn:Hes;
      [|by apply elem_of_nil in Hdup].
    rewrite bool_decide_eq_true_2 by done. unfold getitem. rewrite Hes. simpl.
    by rewrite bool_decide_eq_true_2. }
  assert (Hadd : source_node_id ∈ Graph.node_ids g →
     target_node_id ∈ Graph.node_ids g →
     target_node_id ∉ targets (Graph.edge_mapping g) source_node_id →
     add_extra_edge g source_node_id target_node_id run_condition
     = Ok (set_edge_mapping g
             (<[source_node_id :=
                  edges_of (Graph.edge_mapping g) source_node_id
                  ++ [GraphEdge.mk source_node_id target_node_id run_condition]]>
                (Graph.edge_mapping g)))).
  { intros Hs Ht Hnew. unfold add_extra_edge.
    rewrite bool_decide_eq_false_2 by tauto.
    unfold targets, edges_of in *.
    destruct (Graph.edge_mapping g !! source_node_id) as [es|] eqn:Hes.
    - rewrite bool_decide_eq_true_2 by done. unfold getitem. rewrite Hes. simpl.
      by rewrite bool_decide_eq_false_2.
    - rewrite bool_decide_eq_false_2 by (by intros [? ?]).
      unfold getitem. simpl. rewrite lookup_insert_eq. simpl.
      unfold set_edge_mapping. simpl. by rewrite insert_insert_eq. }
  split_and!; [|done|done].
  destruct (decide (source_node_id ∈ Graph.node_ids g)) as [Hs|Hs];
    [|eexists; apply Hnoop; by left].
  destruct (decide (target_node_id ∈ Graph.node_ids g)) as [Ht|Ht];
    [|eexists; apply Hnoop; right; by left].
  destruct (decide (target_node_id ∈ targets (Graph.edge_mapping g) source_node_id))
    as [Hd|Hd]; [eexists; apply Hnoop; right; by right|].
  eexists. by apply Hadd.
Qed.

Lemma init_node_ids_closure_witness :
  NoDup (Graph.node_ids diamond_graph)
  ∧ (∀ n, n ∈ Graph.node_ids diamond_graph
          ↔ rtc (edge (Graph.edge_mapping diamond_graph))
              (Graph.root_node_id diamond_graph) n)
  ∧ discovered (Graph.edge_mapping diamond_graph)
      (targets (Graph.edge_mapping diamond_graph) (Graph.root_node_id diamond_graph))
      [Graph.root_node_id diamond_graph] (Graph.node_ids diamond_graph).
Proof.
  apply (init_node_ids_closure 5 diamond_config (VariablePoolRef 0) (Some "A")).
  vm_compute. reflexivity.
Defined.

(** ** Cycles *)

Lemma edge_map_to_list em s t :
  edge em s t →
  ∃ es, (s, es) ∈ map_to_list em ∧ t ∈ GraphEdge.target_node_id <$> es.
Proof.
  unfold edge, targets, edges_of. intros Ht.
  destruct (em !! s) as [es|] eqn:Hs; simpl in Ht; [|by apply elem_of_nil in Ht].
  exists es. split; [by apply elem_of_map_to_list | done].
Qed.

(** A rank that falls along every edge not leading to the root rules out
    the cycles [loop_back_tolerated] forbids. *)
Lemma tolerated_by_rank em root (rank : string → nat) :
  (∀ s t, edge em s t → t ≠ root → rank t < rank s) →
  loop_back_tolerated em root.
Proof.
  intros Hrank n _ Hcyc.
  assert (Hgen : ∀ a b, tc (λ s t, edge em s t ∧ t ≠ root) a b → rank b < rank a).
  { clear n Hcyc. intros a b Hab.
    induction Hab as [x y [Hxy Hy]|x y z [Hxy Hy] _ IH]; [by apply Hrank|].
    specialize (Hrank x y Hxy Hy). lia. }
  specialize (Hgen n n Hcyc). lia.
Qed.

Lemma loop_back_config_tolerated :
  loop_back_tolerated (config_edge_mapping loop_back_config) "A".
Proof.
  apply (tolerated_by_rank _ _ (λ s, if decide (s = "A") then 1 else 0)).
  intros s t (es & Hin & Ht)%edge_map_to_list Hne.
  vm_compute in Hin.
  apply elem_of_cons in Hin as [[= -> ->]|Hin];
    [|apply elem_of_cons in Hin as [[= -> ->]|Hin]; [|by apply elem_of_nil in Hin]];
    simpl in Ht; apply list_elem_of_singleton in Ht as ->;
    repeat case_decide; try done; lia.
Qed.

Lemma diamond_config_tolerated :
  loop_back_tolerated (config_edge_mapping diamond_config) "A".
Proof.
  apply (tolerated_by_rank _ _
           (λ s, if decide (s = "A") then 2 else if decide (s = "D") then 0 else 1)).
  intros s t (es & Hin & Ht)%edge_map_to_list Hne.
  vm_compute in Hin.
  repeat (apply elem_of_cons in Hin as [[= -> ->]|Hin]);
    [..|by apply elem_of_nil in Hin];
    simpl in Ht; repeat (apply elem_of_cons in Ht as [->|Ht]);
    try (by apply elem_of_nil in Ht);
    repeat case_decide; try done; lia.
Qed.

Lemma init_terminates_witness :
  (∃ fuel0, ∀ fuel, fuel0 ≤ fuel →
     is_Some (init fuel loop_back_config (VariablePoolRef 0) (Some "A")))
  ∧ (∃ fuel0, ∀ fuel, fuel0 ≤ fuel →
       is_Some (init fuel diamond_config (VariablePoolRef 0) (Some "A"))).
Proof.
  split.
  - apply (init_terminates loop_back_config (VariablePoolRef 0) (Some "A")).
    intros root [= <-]. exact loop_back_config_tolerated.
  - apply (init_terminates diamond_config (VariablePoolRef 0) (Some "A")).
    intros root [= <-]. exact diamond_config_tolerated.
Defined.

(** On [loop_back_config] the root A is the target of B→A, so [init]
    rejects it at line 155 before any traversal starts. *)
Lemma init_loop_back_raises fuel variable_pool :
  init fuel loop_back_config variable_pool (Some "A")
  = Some (Raise (ValueError "Root node id {root_node_id} not found in the graph")).
Proof. reflexivity. Qed.

Lemma add_parallels_single_edge fuel em n e st :
  edges_of em n = [e] →
  _recursively_add_parallels (S fuel) em n st
  = _recursively_add_parallels fuel em (GraphEdge.target_node_id e) st.
Proof.
  intros He. simpl. unfold add_parallel_at. rewrite He. simpl.
  by destruct (_recursively_add_parallels fuel em _ st).
Qed.

(** The detection walk keeps no visited list: between two nodes that point
    at each other it descends as deep as it is allowed to. *)
Lemma add_parallels_unguarded em a b ea eb :
  edges_of em a = [ea] → GraphEdge.target_node_id ea = b →
  edges_of em b = [eb] → GraphEdge.target_node_id eb = a →
  ∀ fuel st, _recursively_add_parallels fuel em a st = None
             ∧ _recursively_add_parallels fuel em b st = None.
Proof.
  intros Ha Hab Hb Hba fuel. induction fuel as [|fuel IH]; intros st; [done|].
  rewrite (add_parallels_single_edge _ _ _ _ _ Ha), Hab.
  rewrite (add_parallels_single_edge _ _ _ _ _ Hb), Hba.
  destruct (IH st). done.
Qed.

(** A cycle that does not pass through the root is outside
    [loop_back_tolerated], and [init] does not return on it. *)
Lemma init_inner_cycle_diverges fuel variable_pool :
  init fuel inner_cycle_config variable_pool (Some "S") = None.
Proof.
  destruct (init fuel inner_cycle_config variable_pool (Some "S")) as [[g|e]|] eqn:Hinit;
    [exfalso|exfalso|done].
  - apply init_Ok_inv in Hinit as (st & [= Hroot] & _ & _ & Hem & _ & Hpar & _).
    rewrite Hem, <- Hroot in Hpar.
    destruct fuel as [|fuel]; [done|].
    rewrite (add_parallels_single_edge _ _ _ (GraphEdge.mk "S" "A" None)) in Hpar
      by reflexivity.
    destruct (add_parallels_unguarded (config_edge_mapping inner_cycle_config)
                "A" "B" (GraphEdge.mk "A" "B" None) (GraphEdge.mk "B" "A" None)
                eq_refl eq_refl eq_refl eq_refl fuel (mk_parallels ∅ ∅ 0)) as [HA _].
    simpl in Hpar. congruence.
  - revert Hinit. unfold init.
    destruct (parse_edge_configs _) as [em tgs] eqn:Hparse.
    vm_compute in Hparse. injection Hparse as <- <-.
    simpl GraphConfig.nodes. cbv iota.
    match goal with |- context [root_found ?a ?b] =>
      assert (root_found a b = Some "S") as -> by (vm_compute; reflexivity) end.
    destruct (_recursively_add_node_ids _ _ _ _); simpl; [|done].
    by destruct (_recursively_add_parallels _ _ _ _).
Qed.

(** ** Leaves, on adjacency without empty lists *)

Lemma foldl_append_filter {A} (P : A → Prop) `{!∀ x, Decision (P x)}
    (f : list A → A → list A) l :
  (∀ acc x, f acc x = if decide (P x) then acc ++ [x] else acc) →
  ∀ acc, foldl f acc l = acc ++ filter P l.
Proof.
  intros Hf. induction l as [|x l IH]; intros acc; simpl.
  - by rewrite app_nil_r.
  - rewrite IH, Hf. destruct (decide (P x)).
    + rewrite filter_cons_True by done. by rewrite <- app_assoc.
    + by rewrite filter_cons_False.
Qed.

(** When no list in [edge_mapping] is empty, [get_leaf_node_ids] returns, in
    [node_ids] order, the nodes without outgoing edge and the nodes whose
    single outgoing edge leads to the root. *)
Lemma get_leaf_node_ids_spec g :
  (∀ n, Graph.edge_mapping g !! n ≠ Some []) →
  get_leaf_node_ids g
  = filter (λ n, targets (Graph.edge_mapping g) n = []
                 ∨ targets (Graph.edge_mapping g) n = [Graph.root_node_id g])
      (Graph.node_ids g).
Proof.
  intros Hne. unfold get_leaf_node_ids.
  rewrite (foldl_append_filter
             (λ n, targets (Graph.edge_mapping g) n = []
                   ∨ targets (Graph.edge_mapping g) n = [Graph.root_node_id g]));
    [done|].
  intros acc n. unfold targets, edges_of. specialize (Hne n).
  destruct (Graph.edge_mapping g !! n) as [[|e [|e' es]]|]; simpl.
  - done.
  - case_bool_decide as H1; case_decide as H2; try done.
    + destruct H1 as [_ [= H1]]. exfalso. apply H2. right. by rewrite H1.
    + destruct H2 as [|[= H2]]; [done|]. exfalso. apply H1. by rewrite H2.
  - case_decide as H2; [by destruct H2|done].
  - done.
Qed.

(** * Further properties *)

(** ** Adjacency as built from the configuration *)

Lemma edges_of_insert_app em s es s' :
  edges_of (<[s := edges_of em s ++ es]> em) s'
  = edges_of em s' ++ (if decide (s = s') then es else []).
Proof.
  unfold edges_of. case_decide as Hs.
  - subst. by rewrite lookup_insert_eq.
  - rewrite lookup_insert_ne by done. by rewrite app_nil_r.
Qed.

Lemma edges_of_insert_nil em s s' :
  em !! s = None → edges_of (<[s := []]> em) s' = edges_of em s'.
Proof.
  intros Hs. unfold edges_of. destruct (decide (s = s')) as [->|Hne].
  - by rewrite lookup_insert_eq, Hs.
  - by rewrite lookup_insert_ne.
Qed.

(** The list stored under a source, read off the configuration. *)
Lemma config_edge_mapping_edges_of graph_config s :
  edges_of (config_edge_mapping graph_config) s
  = List.filter (λ e, bool_decide (GraphEdge.source_node_id e = s))
      (omap graph_edge_of_config (default [] (GraphConfig.edges graph_config))).
Proof.
  unfold config_edge_mapping, parse_edge_configs.
  generalize (default [] (GraphConfig.edges graph_config)) as edge_configs.
  assert (Hgen : ∀ edge_configs acc,
    edges_of (foldl parse_edge_config acc edge_configs).1 s
    = edges_of acc.1 s
      ++ List.filter (λ e, bool_decide (GraphEdge.source_node_id e = s))
           (omap graph_edge_of_config edge_configs)).
  { induction edge_configs as [|ec ecs IH]; intros [em0 tgs0]; simpl.
    - by rewrite app_nil_r.
    - rewrite IH. unfold graph_edge_of_config.
      destruct (truthy_str (EdgeConfig.source ec)) as [src|]; simpl; [|done].
      set (em1 := if bool_decide (is_Some (em0 !! src)) then em0 else <[src:=[]]> em0).
      assert (Hem1 : ∀ s', edges_of em1 s' = edges_of em0 s').
      { intros s'. unfold em1. case_bool_decide as Hsrc; [done|].
        apply edges_of_insert_nil. by apply eq_None_not_Some. }
      destruct (truthy_str (EdgeConfig.target ec)) as [tgt|]; simpl.
      + rewrite edges_of_insert_app, Hem1, <- app_assoc. f_equal.
        simpl. case_decide; case_bool_decide; simpl; try done; tauto.
      + by rewrite Hem1. }
  intros edge_configs. rewrite Hgen. simpl. unfold edges_of. by rewrite lookup_empty.
Qed.

(** X1. The list [init] stores under [s] holds, in the order of the
    configuration, one edge for each entry with source [s] and a truthy
    target, conditioned exactly when the entry has a truthy [sourceHandle]. *)
Theorem config_edge_mapping_edges graph_config s :
  edges_of (config_edge_mapping graph_config) s
  = List.filter (λ e, bool_decide (GraphEdge.source_node_id e = s))
      (omap graph_edge_of_config (default [] (GraphConfig.edges graph_config))).
Proof. apply config_edge_mapping_edges_of. Qed.

(** Every edge [init] stores is filed under its own source. *)
Lemma config_edge_mapping_sources graph_config s e :
  e ∈ edges_of (config_edge_mapping graph_config) s → GraphEdge.source_node_id e = s.
Proof.
  rewrite config_edge_mapping_edges_of. intros He.
  apply list_elem_of_In, filter_In in He as [_ He]. by apply bool_decide_eq_true in He.
Qed.

(** [target_edge_ids] holds the targets of the well-formed edge entries. *)
Lemma parse_edge_configs_target_ids edge_configs :
  (parse_edge_configs edge_configs).2
  = list_to_set (GraphEdge.target_node_id <$> omap graph_edge_of_config edge_configs).
Proof.
  unfold parse_edge_configs.
  assert (Hgen : ∀ acc,
    (foldl parse_edge_config acc edge_configs).2
    = acc.2 ∪ list_to_set
        (GraphEdge.target_node_id <$> omap graph_edge_of_config edge_configs)).
  { induction edge_configs as [|ec ecs IH]; intros [em0 tgs0]; simpl.
    - set_solver.
    - rewrite IH. unfold graph_edge_of_config.
      destruct (truthy_str (EdgeConfig.source ec)) as [src|]; simpl; [|done].
      destruct (truthy_str (EdgeConfig.target ec)) as [tgt|]; simpl; [|done].
      set_solver. }
  rewrite Hgen. simpl. set_solver.
Qed.

Lemma target_ids_edge graph_config t :
  t ∈ (parse_edge_configs (default [] (GraphConfig.edges graph_config))).2
  ↔ ∃ s, edge (config_edge_mapping graph_config) s t.
Proof.
  rewrite parse_edge_configs_target_ids, elem_of_list_to_set, list_elem_of_fmap.
  split.
  - intros (e & -> & He). exists (GraphEdge.source_node_id e).
    unfold edge, targets. rewrite config_edge_mapping_edges_of.
    apply list_elem_of_fmap_2, list_elem_of_In, filter_In.
    split; [by apply list_elem_of_In | by apply bool_decide_eq_true].
  - intros (s & He). unfold edge, targets in He. rewrite config_edge_mapping_edges_of in He.
    apply list_elem_of_fmap in He as (e & -> & He).
    apply list_elem_of_In, filter_In in He as [He _].
    exists e. split; [done | by apply list_elem_of_In].
Qed.

Lemma root_found_Some tgs node_configs root_node_id root :
  root_found (fetch_root_node root_node_id (fetch_root_node_configs tgs node_configs))
    (NodeConfig.id <$> fetch_root_node_configs tgs node_configs) = Some root
  ↔ truthy_str root_node_id = Some root
    ∧ (root ∉ tgs)
    ∧ ∃ node_config, node_config ∈ node_configs ∧ NodeConfig.id node_config = Some root.
Proof.
  assert (Hin : ∀ s, s ≠ "" →
    Some s ∈ NodeConfig.id <$> fetch_root_node_configs tgs node_configs
    ↔ (s ∉ tgs) ∧ ∃ c, c ∈ node_configs ∧ NodeConfig.id c = Some s).
  { intros s Hs. rewrite list_elem_of_fmap. unfold fetch_root_node_configs. split.
    - intros (c & Hc & Hcin). apply list_elem_of_In, filter_In in Hcin as [Hcin Hp].
      rewrite <- Hc in Hp. simpl in Hp. rewrite bool_decide_eq_true_2 in Hp by done.
      apply bool_decide_eq_true in Hp. split; [done|].
      exists c. split; [by apply list_elem_of_In | done].
    - intros (Ht & c & Hcin & Hc). exists c. split; [done|].
      apply list_elem_of_In, filter_In. split; [by apply list_elem_of_In|].
      rewrite Hc. simpl. rewrite bool_decide_eq_true_2 by done.
      by apply bool_decide_eq_true. }
  unfold root_found, fetch_root_node.
  destruct (truthy_str root_node_id) as [s|] eqn:Htr.
  - apply truthy_str_Some in Htr as [-> Hs]. case_bool_decide as Hd.
    + destruct Hd as [_ Hd]. apply Hin in Hd; [|done]. split.
      * intros [= <-]. by split.
      * by intros [[= <-] _].
    + split; [done|]. intros [[= <-] Hr]. exfalso. apply Hd. split; [done|].
      by apply Hin.
  - split; [|by intros [? _]]. by destruct (List.find _ _).
Qed.

(** The two ways [init] raises. *)
Lemma init_raise_cases fuel graph_config variable_pool root_node_id e :
  init fuel graph_config variable_pool root_node_id = Some (Raise e)
  ↔ (no_nodes graph_config
     ∧ e = ValueError "Graph must have at least one node")
    ∨ (¬ no_nodes graph_config
       ∧ (∀ r, truthy_str root_node_id = Some r → ¬ valid_root graph_config r)
       ∧ e = ValueError "Root node id {root_node_id} not found in the graph").
Proof.
  pose proof (target_ids_edge graph_config) as Htgs.
  unfold init, no_nodes, valid_root. revert Htgs. unfold config_edge_mapping.
  destruct (parse_edge_configs _) as [em tgs]. simpl. intros Htgs.
  destruct (GraphConfig.nodes graph_config) as [[|nc ncs]|] eqn:Hnodes.
  - split; [intros [= <-]; left; by split; [right|] |].
    intros [[_ ->]|[Hno _]]; [done|]. exfalso. apply Hno. by right.
  - destruct (root_found _ _) as [root|] eqn:Hroot.
    + apply root_found_Some in Hroot as (Htr & Hnt & Hnode).
      split.
      * destruct (_recursively_add_node_ids _ _ _ _); simpl; [|done].
        by destruct (_recursively_add_parallels _ _ _ _).
      * intros [[[?|?] _]|(_ & Hinv & _)]; [done|done|].
        exfalso. apply (Hinv root Htr). apply truthy_str_Some in Htr as [_ Hne].
        split_and!; [done|done|]. intros s Hs. apply Hnt, Htgs. by exists s.
    + split.
      * intros [= <-]. right. split_and!; [by intros [?|?] | | done].
        intros r Htr (Hne & Hnode & Hno).
        assert (root_found
                  (fetch_root_node root_node_id (fetch_root_node_configs tgs (nc :: ncs)))
                  (NodeConfig.id <$> fetch_root_node_configs tgs (nc :: ncs)) = Some r)
          as Hsome; [|congruence].
        apply root_found_Some. split_and!; [done| |done].
        intros (s & Hs)%Htgs. by eapply Hno.
      * intros [[[?|?] _]|(_ & _ & ->)]; done.
  - split; [intros [= <-]; left; by split; [left|] |].
    intros [[_ ->]|[Hno _]]; [done|]. exfalso. apply Hno. by left.
Qed.


(** With a valid root [init] raises nothing: whenever it returns, it
    returns a graph whose root is the argument. *)
Lemma init_valid_root_returns_graph fuel graph_config variable_pool r res :
  valid_root graph_config r →
  init fuel graph_config variable_pool (Some r) = Some res →
  ∃ g, res = Ok g ∧ Graph.root_node_id g = r.
Proof.
  intros Hvalid Hinit. destruct res as [g|e].
  - exists g. split; [done|].
    apply init_Ok_inv in Hinit as (_ & [= ->] & _). done.
  - exfalso. apply init_raise_cases in Hinit as [[[Hn|Hn] _]|(_ & Hinv & _)].
    + destruct Hvalid as (_ & (c & Hc & _) & _). rewrite Hn in Hc.
      by apply elem_of_nil in Hc.
    + destruct Hvalid as (_ & (c & Hc & _) & _). rewrite Hn in Hc.
      by apply elem_of_nil in Hc.
    + apply (Hinv r); [|done]. destruct Hvalid as (Hne & _). simpl.
      by rewrite bool_decide_eq_true_2.
Qed.

(** ** Termination of the traversals *)

(** X6. The reachability traversal returns on every adjacency, cyclic or not:
    its visited list bounds the depth of the recursion by the number of
    edge targets. *)
Theorem add_node_ids_terminates em node_ids node_id :
  ∀ fuel, size (all_targets em) < fuel →
    ∃ node_ids', _recursively_add_node_ids fuel node_ids em node_id = Some node_ids'
                 ∧ ∀ n, n ∈ node_ids → n ∈ node_ids'.
Proof.
  intros fuel Hfuel. rewrite add_node_ids_guarded_walk.
  destruct (guarded_walk_terminates (λ _, false) em fuel node_ids node_id)
    as (v & Hv & Hsub).
  - eapply Nat.le_lt_trans; [|exact Hfuel]. apply subseteq_size. set_solver.
  - exists v. split; [done|]. intros n Hn.
    specialize (Hsub n). rewrite !elem_of_list_to_set in Hsub. by apply Hsub.
Qed.

Lemma add_node_ids_terminates_witness :
  ∃ node_ids',
    _recursively_add_node_ids 3 ["A"] (config_edge_mapping loop_back_config) "A"
    = Some node_ids'
    ∧ ∀ n, n ∈ ["A"] → n ∈ node_ids'.
Proof.
  apply (add_node_ids_terminates (config_edge_mapping loop_back_config) ["A"] "A" 3).
  vm_compute. lia.
Defined.

Lemma for_each_None {A S} (f : S → A → option S) s l x :
  x ∈ l → (∀ s, f s x = None) → for_each f s l = None.
Proof.
  intros Hx Hf. revert s. induction l as [|y l IH]; intros s; [by apply elem_of_nil in Hx|].
  simpl. apply elem_of_cons in Hx as [<-|Hx]; [by rewrite Hf|].
  destruct (f s y); simpl; [by apply IH | done].
Qed.

(** The detection walk keeps no visited list: started at a node from which
    a cycle can be reached, it never returns, however deep the call stack
    may grow. *)
Lemma add_parallels_diverges_on_cycle em c :
  tc (edge em) c c →
  ∀ n, rtc (edge em) n c → ∀ fuel st, _recursively_add_parallels fuel em n st = None.
Proof.
  intros Hcyc.
  assert (Hstep : ∀ n, rtc (edge em) n c → ∃ m, edge em n m ∧ rtc (edge em) m c).
  { intros n [->|(m & Hnm & Hmc)]%rtc_inv; [|by eauto].
    inversion Hcyc as [? ? Hxy|? m ? Hxm Hmc]; subst.
    - exists c. split; [done|]. apply rtc_refl.
    - exists m. split; [done|]. by apply tc_rtc. }
  intros n Hn fuel. revert n Hn. induction fuel as [|fuel IH]; intros n Hn st; [done|].
  simpl. destruct (add_parallel_at fuel em n st) as [st1|]; simpl; [|done].
  destruct (Hstep n Hn) as (m & Hnm & Hm).
  unfold edge, targets in Hnm. apply list_elem_of_fmap in Hnm as (e & -> & He).
  eapply for_each_None; [exact He|]. intros st2. by apply IH.
Qed.

(** X5. [init] does not return on a configuration whose valid root reaches a
    cycle: the detection walk recurses until the interpreter gives up. *)
Theorem init_diverges_on_cycle graph_config variable_pool r c :
  valid_root graph_config r →
  rtc (edge (config_edge_mapping graph_config)) r c →
  tc (edge (config_edge_mapping graph_config)) c c →
  ∀ fuel, init fuel graph_config variable_pool (Some r) = None.
Proof.
  intros Hvalid Hreach Hcyc fuel.
  destruct (init fuel graph_config variable_pool (Some r)) as [res|] eqn:Hinit; [|done].
  destruct (init_valid_root_returns_graph _ _ _ _ _ Hvalid Hinit) as (g & -> & Hroot).
  apply init_Ok_inv in Hinit as (st & _ & _ & _ & Hem & _ & Hpar & _).
  rewrite Hem, Hroot in Hpar.
  by rewrite (add_parallels_diverges_on_cycle _ c Hcyc r Hreach) in Hpar.
Qed.

Lemma inner_cycle_config_valid_root : valid_root inner_cycle_config "S".
Proof.
  split_and!; [done| |].
  - exists (node "S" "start"). split; [|done]. simpl. by left.
  - intros s (es & Hin & Ht)%edge_map_to_list.
    vm_compute in Hin.
    repeat (apply elem_of_cons in Hin as [[= -> ->]|Hin]);
      [..|by apply elem_of_nil in Hin];
      simpl in Ht; repeat (apply elem_of_cons in Ht as [[=]|Ht]);
      by apply elem_of_nil in Ht.
Qed.

Lemma inner_cycle_config_edges :
  edge (config_edge_mapping inner_cycle_config) "S" "A"
  ∧ edge (config_edge_mapping inner_cycle_config) "A" "B"
  ∧ edge (config_edge_mapping inner_cycle_config) "B" "A".
Proof. split_and!; unfold edge; vm_compute; by left. Qed.

Lemma init_diverges_on_cycle_witness :
  init 1000 inner_cycle_config (VariablePoolRef 0) (Some "S") = None.
Proof.
  refine (init_diverges_on_cycle inner_cycle_config (VariablePoolRef 0) "S" "A"
            _ _ _ 1000).
  - exact inner_cycle_config_valid_root.
  - apply rtc_once, inner_cycle_config_edges.
  - eapply tc_l; [apply inner_cycle_config_edges|].
    apply tc_once, inner_cycle_config_edges.
Defined.

(** ** Parallel regions: what gets a scope *)

Lemma odict_keys_set {V} (d : odict V) k v k' :
  k' ∈ odict_keys (odict_set d k v) ↔ k' = k ∨ k' ∈ odict_keys d.
Proof.
  unfold odict_keys. induction d as [|[k0 v0] d IH]; simpl.
  - rewrite list_elem_of_singleton. split; [by left|]. by intros [?|?%elem_of_nil].
  - case_decide as Hk; simpl; rewrite !elem_of_cons.
    + subst. tauto.
    + rewrite IH. tauto.
Qed.

(** A loop whose every iteration stores under the key of its item
    produces the keys of the items. *)
Lemma for_each_sets_keys {A V} (key : A → string)
    (body : odict V → A → option (odict V)) l : ∀ d0 d,
  (∀ d x d', body d x = Some d' → ∃ v, d' = odict_set d (key x) v) →
  for_each body d0 l = Some d →
  ∀ k, k ∈ odict_keys d ↔ k ∈ odict_keys d0 ∨ k ∈ key <$> l.
Proof.
  induction l as [|x l IH]; intros d0 d Hbody; simpl.
  - intros [= <-] k. split; [by left|]. by intros [?|?%elem_of_nil].
  - destruct (body d0 x) as [d1|] eqn:Hx; simpl; [|done]. intros Hrest k.
    destruct (Hbody _ _ _ Hx) as [v ->].
    rewrite (IH _ _ Hbody Hrest), odict_keys_set, elem_of_cons. tauto.
Qed.

(** The dictionary [_fetch_all_node_ids_in_parallels] returns has the
    branch roots it was given as keys, and no other key. *)
Lemma fetch_all_keys fuel em parallel_node_ids d :
  _fetch_all_node_ids_in_parallels fuel em parallel_node_ids = Some d →
  ∀ k, k ∈ odict_keys d ↔ k ∈ parallel_node_ids.
Proof.
  unfold _fetch_all_node_ids_in_parallels.
  match goal with |- ?a ≫= _ = _ → _ => destruct a as [routes|] eqn:Hroutes end;
    simpl; [|done].
  destruct (leaf_and_merge_branch_node_ids em routes) as [leaf merge].
  intros Hd k.
  eapply (for_each_sets_keys fst) in Hd.
  - rewrite Hd. eapply (for_each_sets_keys id) in Hroutes.
    + fold (odict_keys routes). rewrite Hroutes, list_fmap_id.
      unfold odict_keys. simpl. rewrite elem_of_nil. tauto.
    + intros d0 b d'. destruct (_recursively_fetch_routes _ _ _ _); simpl; [|done].
      intros [= <-]. by eexists.
  - intros d0 [b ids] d'. simpl. destruct (odict_get _ b).
    + destruct (_recursively_add_parallel_node_ids _ _ _ _ _); simpl; [|done].
      intros [= <-]. by eexists.
    + intros [= <-]. by eexists.
Qed.

Lemma update_with_keys_lookup {V} (npm : gmap string nat) (d : odict V) (i : nat) n :
  foldl (λ m node_id, <[node_id := i]> m) npm (odict_keys d) !! n
  = if decide (n ∈ odict_keys d) then Some i else npm !! n.
Proof.
  generalize (odict_keys d) as l. intros l. revert npm.
  induction l as [|k l IH]; intros npm; cbn [foldl].
  - destruct (decide (n ∈ [])) as [H|H]; [by apply elem_of_nil in H | done].
  - rewrite IH. destruct (decide (n ∈ l)) as [Hl|Hl].
    + rewrite decide_True; [done | by right].
    + destruct (decide (k = n)) as [->|Hne].
      * rewrite lookup_insert_eq. rewrite decide_True; [done | by left].
      * rewrite lookup_insert_ne by done. rewrite decide_False; [done|].
        intros [?|?]%elem_of_cons; congruence.
Qed.

(** The two cases of lines 313-333. *)
Lemma add_parallel_at_cases fuel em start_node_id st st' :
  add_parallel_at fuel em start_node_id st = Some st' →
  (¬ (1 < length (edges_of em start_node_id)
      ∧ branch_roots em start_node_id ≠ []) → st' = st)
  ∧ (1 < length (edges_of em start_node_id) →
     branch_roots em start_node_id ≠ [] →
     parallel_mapping st'
     = <[uuid_issued st :=
           GraphParallel.mk (uuid_issued st)
             (parent_of (node_parallel_mapping st) (branch_roots em start_node_id))]>
         (parallel_mapping st)
     ∧ uuid_issued st' = S (uuid_issued st)
     ∧ ∀ n, node_parallel_mapping st' !! n
            = if decide (n ∈ branch_roots em start_node_id)
              then Some (uuid_issued st)
              else node_parallel_mapping st !! n).
Proof.
  unfold add_parallel_at. fold (branch_roots em start_node_id).
  case_bool_decide as Hlen.
  - destruct (branch_roots em start_node_id) as [|b bs] eqn:Hbr.
    + intros [= <-]. split; [done|]. by intros _ ?.
    + destruct (_fetch_all_node_ids_in_parallels _ _ _) as [d|] eqn:Hd; simpl; [|done].
      intros [= <-]. split; [intros Hno; exfalso; by apply Hno|].
      intros _ _. simpl. split_and!; [done|done|].
      intros n. unfold update_with_keys. rewrite update_with_keys_lookup.
      pose proof (fetch_all_keys _ _ _ _ Hd n) as Hk.
      repeat case_decide; try done; tauto.
  - intros [= <-]. split; [done|]. by intros ?.
Qed.

(** X10. What lines 313-333 do.  At a node that is no fan-out nothing changes.
    At a fan-out one parallel is added under a fresh id, and the new id is
    assigned to the branch roots and to no other node: the members that
    [_fetch_all_node_ids_in_parallels] computes for each branch are not
    used, since line 333 iterates the keys of its result. *)
Theorem add_parallel_at_spec fuel em start_node_id st st' :
  add_parallel_at fuel em start_node_id st = Some st' →
  (¬ (1 < length (edges_of em start_node_id)
      ∧ branch_roots em start_node_id ≠ []) → st' = st)
  ∧ (1 < length (edges_of em start_node_id) →
     branch_roots em start_node_id ≠ [] →
     parallel_mapping st'
     = <[uuid_issued st :=
           GraphParallel.mk (uuid_issued st)
             (parent_of (node_parallel_mapping st) (branch_roots em start_node_id))]>
         (parallel_mapping st)
     ∧ uuid_issued st' = S (uuid_issued st)
     ∧ ∀ n, node_parallel_mapping st' !! n
            = if decide (n ∈ branch_roots em start_node_id)
              then Some (uuid_issued st)
              else node_parallel_mapping st !! n).
Proof. apply add_parallel_at_cases. Qed.

Lemma add_parallel_at_spec_witness :
  (¬ (1 < length (edges_of (config_edge_mapping nested_config) "A")
      ∧ branch_roots (config_edge_mapping nested_config) "A" ≠ [])
   → {| parallel_mapping := {[0 := GraphParallel.mk 0 None]};
        node_parallel_mapping := {["B" := 0; "C" := 0]};
        uuid_issued := 1 |} = mk_parallels ∅ ∅ 0)
  ∧ (1 < length (edges_of (config_edge_mapping nested_config) "A") →
     branch_roots (config_edge_mapping nested_config) "A" ≠ [] →
     parallel_mapping
       {| parallel_mapping := {[0 := GraphParallel.mk 0 None]};
          node_parallel_mapping := {["B" := 0; "C" := 0]};
          uuid_issued := 1 |}
     = <[uuid_issued (mk_parallels ∅ ∅ 0) :=
           GraphParallel.mk (uuid_issued (mk_parallels ∅ ∅ 0))
             (parent_of (node_parallel_mapping (mk_parallels ∅ ∅ 0))
                (branch_roots (config_edge_mapping nested_config) "A"))]>
         (parallel_mapping (mk_parallels ∅ ∅ 0))
     ∧ uuid_issued
         {| parallel_mapping := {[0 := GraphParallel.mk 0 None]};
            node_parallel_mapping := {["B" := 0; "C" := 0]};
            uuid_issued := 1 |} = S (uuid_issued (mk_parallels ∅ ∅ 0))
     ∧ ∀ n, node_parallel_mapping
              {| parallel_mapping := {[0 := GraphParallel.mk 0 None]};
                 node_parallel_mapping := {["B" := 0; "C" := 0]};
                 uuid_issued := 1 |} !! n
            = if decide (n ∈ branch_roots (config_edge_mapping nested_config) "A")
              then Some (uuid_issued (mk_parallels ∅ ∅ 0))
              else node_parallel_mapping (mk_parallels ∅ ∅ 0) !! n).
Proof.
  apply (add_parallel_at_spec 3 (config_edge_mapping nested_config) "A"
           (mk_parallels ∅ ∅ 0)).
  vm_compute. reflexivity.
Defined.

Lemma parent_of_Some npm parallel_node_ids j :
  parent_of npm parallel_node_ids = Some j → ∃ b, npm !! b = Some j.
Proof.
  unfold parent_of. destruct (forallb _ _); [|done].
  destruct parallel_node_ids as [|b bs]; simpl; [done|]. eauto.
Qed.

Lemma add_parallel_at_inv fuel em n st st' :
  add_parallel_at fuel em n st = Some st' → parallels_inv st → parallels_inv st'.
Proof.
  intros Hrun (Hdom & Hrec & Hnpm).
  destruct (add_parallel_at_cases _ _ _ _ _ Hrun) as [Hsame Hfan].
  destruct (decide (1 < length (edges_of em n) ∧ branch_roots em n ≠ [])) as [[Hlen Hbr]|Hno];
    [|by rewrite (Hsame Hno)].
  destruct (Hfan Hlen Hbr) as (Hpm & Huuid & Hnpm'). split_and!.
  - intros i. rewrite Hpm, Huuid. destruct (decide (uuid_issued st = i)) as [<-|Hne].
    + rewrite lookup_insert_eq. split; [lia | by eauto].
    + rewrite lookup_insert_ne by done. rewrite Hdom. lia.
  - intros i p. rewrite Hpm. destruct (decide (uuid_issued st = i)) as [<-|Hne].
    + rewrite lookup_insert_eq. intros [= <-]. simpl. split; [done|].
      intros j (b & Hb)%parent_of_Some. by eapply Hnpm.
    + rewrite lookup_insert_ne by done. apply Hrec.
  - intros m i. rewrite Hnpm', Huuid. case_decide.
    + intros [= <-]. lia.
    + intros Hm. apply Hnpm in Hm. lia.
Qed.

Lemma add_parallels_inv em fuel : ∀ n st st',
  _recursively_add_parallels fuel em n st = Some st' →
  parallels_inv st → parallels_inv st'.
Proof.
  induction fuel as [|fuel IH]; intros n st st'; [done|].
  simpl. destruct (add_parallel_at fuel em n st) as [st1|] eqn:Hfan; simpl; [|done].
  intros Hloop Hinv. apply (add_parallel_at_inv _ _ _ _ _ Hfan) in Hinv.
  apply (for_each_inv parallels_inv) in Hloop; [done|done|].
  intros s e s' _ Hs Hstep. by eapply IH.
Qed.

(** X11. The parallels of a graph [init] returns form a forest: each record is
    filed under its own id, a parent is a parallel created earlier that is
    in [parallel_mapping], and every scope in [node_parallel_mapping] is
    in [parallel_mapping]. *)
Theorem init_scopes_well_formed fuel graph_config variable_pool root_node_id g :
  init fuel graph_config variable_pool root_node_id = Some (Ok g) →
  scopes_well_formed (Graph.parallel_mapping g) (Graph.node_parallel_mapping g).
Proof.
  intros (st & _ & _ & _ & _ & _ & Hpar & -> & -> & _)%init_Ok_inv.
  apply add_parallels_inv in Hpar as (Hdom & Hrec & Hnpm).
  - split.
    + intros i p Hp. destruct (Hrec i p Hp) as [Hid Hparent]. split; [done|].
      intros j Hj. specialize (Hparent j Hj). split; [done|].
      apply Hdom. assert (i < uuid_issued st) by (apply Hdom; eauto). lia.
    + intros n i Hn. by apply Hdom, (Hnpm n).
  - split_and!; simpl.
    + intros i. rewrite lookup_empty. split; [by intros [? ?] | lia].
    + intros i p. by rewrite lookup_empty.
    + intros n i. by rewrite lookup_empty.
Qed.

Lemma init_scopes_well_formed_witness :
  scopes_well_formed (Graph.parallel_mapping diamond_graph)
    (Graph.node_parallel_mapping diamond_graph).
Proof.
  apply (init_scopes_well_formed 5 diamond_config (VariablePoolRef 0) (Some "A")).
  vm_compute. reflexivity.
Defined.

Lemma add_parallels_branch_roots em fuel : ∀ n st st',
  _recursively_add_parallels fuel em n st = Some st' →
  (∀ m, is_Some (node_parallel_mapping st !! m) → is_branch_root em m) →
  ∀ m, is_Some (node_parallel_mapping st' !! m) → is_branch_root em m.
Proof.
  induction fuel as [|fuel IH]; intros n st st'; [done|].
  simpl. destruct (add_parallel_at fuel em n st) as [st1|] eqn:Hfan; simpl; [|done].
  intros Hloop Hst.
  assert (Hst1 : ∀ m, is_Some (node_parallel_mapping st1 !! m) → is_branch_root em m).
  { destruct (add_parallel_at_cases _ _ _ _ _ Hfan) as [Hsame Hfo].
    destruct (decide (1 < length (edges_of em n) ∧ branch_roots em n ≠ []))
      as [[Hlen Hbr]|Hno]; [|by rewrite (Hsame Hno)].
    destruct (Hfo Hlen Hbr) as (_ & _ & Hnpm). intros m. rewrite Hnpm.
    case_decide; [|by apply Hst]. intros _. by exists n. }
  eapply (for_each_inv
            (λ s, ∀ m, is_Some (node_parallel_mapping s !! m) → is_branch_root em m));
    [exact Hst1| |exact Hloop].
  intros s e s' _ Hs Hstep. simpl in *. exact (IH _ _ _ Hstep Hs).
Qed.

(** X12. In a graph [init] returns, a node has an entry in
    [node_parallel_mapping] only if it is a branch root: the target of a
    conditioned edge of a node with more than one outgoing edge.  Nodes
    further down a branch get no entry. *)
Theorem init_scoped_nodes_are_branch_roots
    fuel graph_config variable_pool root_node_id g n :
  init fuel graph_config variable_pool root_node_id = Some (Ok g) →
  is_Some (Graph.node_parallel_mapping g !! n) →
  is_branch_root (Graph.edge_mapping g) n.
Proof.
  intros (st & _ & _ & _ & _ & _ & Hpar & _ & -> & _)%init_Ok_inv.
  eapply add_parallels_branch_roots; [exact Hpar|].
  simpl. intros m. rewrite lookup_empty. by intros [? ?].
Qed.

Lemma init_scoped_nodes_are_branch_roots_witness :
  is_branch_root (Graph.edge_mapping diamond_graph) "B".
Proof.
  apply (init_scoped_nodes_are_branch_roots 5 diamond_config (VariablePoolRef 0)
           (Some "A") diamond_graph "B").
  - vm_compute. reflexivity.
  - vm_compute. eauto.
Defined.

(** ** What the guarded traversals collect *)

Lemma rtc_closed {A} (R : relation A) (ids : list A) root :
  root ∈ ids →
  (∀ m, m ∈ ids → ∀ t, R m t → t ∈ ids) →
  ∀ n, rtc R root n → n ∈ ids.
Proof.
  intros Hroot Hcl n Hn. induction Hn as [|x y z Hxy _ IHn]; [done|].
  apply IHn. by eapply Hcl.
Qed.

(** One call of a guarded traversal, with [R] the edges whose target is not
    stopped at: it appends nodes reachable from [n] along [R], keeps the
    list free of repetitions, leaves every [R]-target of [n] in the list,
    and every appended node has all its [R]-targets in the list. *)
Lemma guarded_walk_spec stop em fuel : ∀ v n v',
  guarded_walk stop fuel em v n = Some v' →
  ∃ new, v' = v ++ new
    ∧ (NoDup v → NoDup v')
    ∧ (∀ m, m ∈ new → tc (λ s t, edge em s t ∧ stop t = false) n m)
    ∧ (∀ t, edge em n t → stop t = false → t ∈ v')
    ∧ (∀ m, m ∈ new → ∀ t, edge em m t → stop t = false → t ∈ v').
Proof.
  induction fuel as [|fuel IH]; intros v n v' Hrun; [done|].
  simpl in Hrun.
  assert (∃ new, v' = v ++ new
    ∧ (NoDup v → NoDup v')
    ∧ (∀ m, m ∈ new → tc (λ s t, edge em s t ∧ stop t = false) n m)
    ∧ (∀ e, e ∈ edges_of em n → stop (GraphEdge.target_node_id e) = false
            → GraphEdge.target_node_id e ∈ v')
    ∧ (∀ m, m ∈ new → ∀ t, edge em m t → stop t = false → t ∈ v'))
    as (new & ? & ? & ? & Ht & ?).
  { assert (Hes : ∀ e, e ∈ edges_of em n → edge em n (GraphEdge.target_node_id e))
      by apply edge_of_elem.
    revert Hrun Hes. generalize (edges_of em n) as es.
    intros es; revert v. induction es as [|e es IHes]; intros v Hrun Hes.
    - simpl in Hrun. injection Hrun as <-. exists []. rewrite app_nil_r.
      split_and!; [done|done|..]; intros ? H; by apply elem_of_nil in H.
    - simpl in Hrun.
      destruct (bool_decide (GraphEdge.target_node_id e ∈ v)
                || stop (GraphEdge.target_node_id e)) eqn:Hguard.
      + simpl in Hrun. destruct (IHes v Hrun) as (new & -> & Hnd & Hreach & Hts & Hcl).
        { intros e' He'. apply Hes. by right. }
        exists new. split_and!; try done.
        intros e' [->|He']%elem_of_cons Hstop; [|by apply Hts].
        rewrite Hstop, orb_false_r in Hguard. apply bool_decide_eq_true in Hguard.
        apply elem_of_app. by left.
      + apply orb_false_iff in Hguard as [Hin%bool_decide_eq_false Hstop].
        destruct (guarded_walk stop fuel em _ _) as [v1|] eqn:Hrec;
          simpl in Hrun; [|done].
        destruct (IH _ _ _ Hrec) as (new1 & -> & Hnd1 & Hreach1 & Hts1 & Hcl1).
        destruct (IHes _ Hrun) as (new2 & -> & Hnd2 & Hreach2 & Hts2 & Hcl2).
        { intros e' He'. apply Hes. by right. }
        assert (Het : edge em n (GraphEdge.target_node_id e)) by (apply Hes; left).
        exists ([GraphEdge.target_node_id e] ++ new1 ++ new2).
        split_and!.
        * by rewrite <- !app_assoc.
        * intros Hnd. apply Hnd2, Hnd1.
          apply NoDup_app. split_and!; [done| |apply NoDup_singleton].
          intros x Hx ->%list_elem_of_singleton. done.
        * intros m [Hm|[Hm|Hm]%elem_of_app]%elem_of_app.
          -- apply list_elem_of_singleton in Hm as ->. by apply tc_once.
          -- eapply tc_l; [split; [exact Het | exact Hstop] | by apply Hreach1].
          -- by apply Hreach2.
        * intros e' [->|He']%elem_of_cons Hs; [|by apply Hts2].
          rewrite !elem_of_app. left; left; right. by left.
        * intros m [Hm|[Hm|Hm]%elem_of_app]%elem_of_app t Hmt Hs.
          -- apply list_elem_of_singleton in Hm as ->.
             apply elem_of_app. left. by apply Hts1.
          -- apply elem_of_app. left. by eapply Hcl1.
          -- by eapply Hcl2. }
  exists new. split_and!; try done.
  intros t (e & -> & He)%list_elem_of_fmap. by apply Ht.
Qed.

(** X7. Started with an empty list, [_recursively_fetch_routes] returns,
    without repetition, exactly the nodes that can be reached from
    [start_node_id] in one or more steps; the start node itself is in the
    list only when it lies on a cycle. *)
Theorem fetch_routes_spec fuel em start_node_id routes_node_ids :
  _recursively_fetch_routes fuel em start_node_id [] = Some routes_node_ids →
  NoDup routes_node_ids
  ∧ ∀ m, m ∈ routes_node_ids ↔ tc (edge em) start_node_id m.
Proof.
  rewrite fetch_routes_guarded_walk. intros Hrun.
  destruct (guarded_walk_spec _ _ _ _ _ _ Hrun) as (new & Heq & Hnd & Hreach & Hts & Hcl).
  simpl in Heq. subst new. split; [apply Hnd, NoDup_nil_2|].
  intros m. split.
  - intros Hm%Hreach. clear -Hm. induction Hm as [x y [Hxy _]|x y z [Hxy _] _ IH].
    + by apply tc_once.
    + by eapply tc_l.
  - assert (Hgen : ∀ x, x = start_node_id ∨ x ∈ routes_node_ids →
               tc (edge em) x m → m ∈ routes_node_ids); [|by eauto].
    intros x Hx Hxm. induction Hxm as [x y Hxy|x y z Hxy _ IH].
    + destruct Hx as [->|Hx]; [by apply Hts | by eapply Hcl].
    + apply IH. right. destruct Hx as [->|Hx]; [by apply Hts | by eapply Hcl].
Qed.

Lemma fetch_routes_spec_witness :
  NoDup ["B"; "D"; "C"]
  ∧ ∀ m, m ∈ ["B"; "D"; "C"] ↔ tc (edge (config_edge_mapping diamond_config)) "A" m.
Proof.
  apply (fetch_routes_spec 4 (config_edge_mapping diamond_config) "A").
  vm_compute. reflexivity.
Defined.

(** X8. Started with the branch root alone, [_recursively_add_parallel_node_ids]
    returns, without repetition, exactly the nodes that can be reached
    from the branch root along edges that do not enter the merge node:
    the merge node and what lies only behind it are left out. *)
Theorem add_parallel_node_ids_spec fuel em merge_node_id branch_node_id branch_node_ids :
  _recursively_add_parallel_node_ids fuel [branch_node_id] em merge_node_id branch_node_id
    = Some branch_node_ids →
  NoDup branch_node_ids
  ∧ ∀ m, m ∈ branch_node_ids
         ↔ rtc (λ s t, edge em s t ∧ t ≠ merge_node_id) branch_node_id m.
Proof.
  rewrite add_parallel_node_ids_guarded_walk. intros Hrun.
  destruct (guarded_walk_spec _ _ _ _ _ _ Hrun) as (new & -> & Hnd & Hreach & Hts & Hcl).
  split; [apply Hnd, NoDup_singleton|].
  intros m. split.
  - intros [->%list_elem_of_singleton|Hm%Hreach]%elem_of_app; [done|].
    apply tc_rtc. clear -Hm.
    induction Hm as [x y [Hxy Hs]|x y z [Hxy Hs] _ IH];
      apply bool_decide_eq_false in Hs.
    + by apply tc_once.
    + by eapply tc_l.
  - apply rtc_closed.
    + apply elem_of_app. left. by left.
    + intros x Hx t [Hxt Hne].
      assert (bool_decide (t = merge_node_id) = false) by by apply bool_decide_eq_false.
      apply elem_of_app in Hx as [->%list_elem_of_singleton|Hx];
        [by apply Hts | by eapply Hcl].
Qed.

Lemma add_parallel_node_ids_spec_witness :
  NoDup ["B"]
  ∧ ∀ m, m ∈ ["B"]
         ↔ rtc (λ s t, edge (config_edge_mapping diamond_config) s t ∧ t ≠ "D") "B" m.
Proof.
  apply (add_parallel_node_ids_spec 4 (config_edge_mapping diamond_config) "D" "B").
  vm_compute. reflexivity.
Defined.

(** ** Dynamic edge insertion, continued *)

Lemma add_extra_edge_noop g source_node_id target_node_id run_condition :
  source_node_id ∉ Graph.node_ids g
  ∨ target_node_id ∉ Graph.node_ids g
  ∨ target_node_id ∈ targets (Graph.edge_mapping g) source_node_id →
  add_extra_edge g source_node_id target_node_id run_condition = Ok g.
Proof.
  intros Hcase. unfold add_extra_edge. case_bool_decide as Hids; [done|].
  destruct Hcase as [?|[?|Hdup]]; [tauto|tauto|].
  unfold targets, edges_of in Hdup.
  destruct (Graph.edge_mapping g !! source_node_id) as [es|] eqn:Hes;
    [|by apply elem_of_nil in Hdup].
  rewrite bool_decide_eq_true_2 by done. unfold getitem. rewrite Hes. simpl.
  by rewrite bool_decide_eq_true_2.
Qed.

Lemma add_extra_edge_appends g source_node_id target_node_id run_condition :
  source_node_id ∈ Graph.node_ids g →
  target_node_id ∈ Graph.node_ids g →
  target_node_id ∉ targets (Graph.edge_mapping g) source_node_id →
  add_extra_edge g source_node_id target_node_id run_condition
  = Ok (set_edge_mapping g
          (<[source_node_id :=
               edges_of (Graph.edge_mapping g) source_node_id
               ++ [GraphEdge.mk source_node_id target_node_id run_condition]]>
             (Graph.edge_mapping g))).
Proof.
  intros Hs Ht Hnew. unfold add_extra_edge.
  rewrite bool_decide_eq_false_2 by tauto.
  unfold targets, edges_of in *.
  destruct (Graph.edge_mapping g !! source_node_id) as [es|] eqn:Hes.
  - rewrite bool_decide_eq_true_2 by done. unfold getitem. rewrite Hes. simpl.
    by rewrite bool_decide_eq_false_2.
  - rewrite bool_decide_eq_false_2 by (by intros [? ?]).
    unfold getitem. simpl. rewrite lookup_insert_eq. simpl.
    unfold set_edge_mapping. simpl. by rewrite insert_insert_eq.
Qed.

(** The three ways a call of [add_extra_edge] ends. *)
Lemma add_extra_edge_cases g s t run_condition g' :
  add_extra_edge g s t run_condition = Ok g' →
  (g' = g ∧ (s ∉ Graph.node_ids g ∨ t ∉ Graph.node_ids g))
  ∨ (g' = g ∧ s ∈ Graph.node_ids g ∧ t ∈ Graph.node_ids g
     ∧ t ∈ targets (Graph.edge_mapping g) s)
  ∨ (g' = set_edge_mapping g
            (<[s := edges_of (Graph.edge_mapping g) s ++ [GraphEdge.mk s t run_condition]]>
               (Graph.edge_mapping g))
     ∧ s ∈ Graph.node_ids g ∧ t ∈ Graph.node_ids g
     ∧ t ∉ targets (Graph.edge_mapping g) s).
Proof.
  intros Hrun.
  destruct (decide (s ∈ Graph.node_ids g)) as [Hs|Hs].
  2: { rewrite add_extra_edge_noop in Hrun by (by left). injection Hrun as <-.
       left. split; [done | by left]. }
  destruct (decide (t ∈ Graph.node_ids g)) as [Ht|Ht].
  2: { rewrite add_extra_edge_noop in Hrun by (right; by left). injection Hrun as <-.
       left. split; [done | by right]. }
  destruct (decide (t ∈ targets (Graph.edge_mapping g) s)) as [Hd|Hd].
  - rewrite add_extra_edge_noop in Hrun by (right; by right). injection Hrun as <-.
    right; left. done.
  - rewrite add_extra_edge_appends in Hrun by done. injection Hrun as <-.
    right; right. done.
Qed.

(** X13. After [add_extra_edge] with both ids in [node_ids], adjacency holds
    the edge from source to target, and holds no other edge it did not
    hold before; no edge is ever removed. *)
Theorem add_extra_edge_edges g s t run_condition g' :
  add_extra_edge g s t run_condition = Ok g' →
  s ∈ Graph.node_ids g → t ∈ Graph.node_ids g →
  ∀ s' t', edge (Graph.edge_mapping g') s' t'
           ↔ edge (Graph.edge_mapping g) s' t' ∨ (s' = s ∧ t' = t).
Proof.
  intros [[-> [?|?]]|[(-> & _ & _ & Hd)|(-> & _ & _ & Hd)]]%add_extra_edge_cases
    Hs Ht s' t'; try done.
  - split; [by left|]. intros [?|[-> ->]]; done.
  - simpl. rewrite edge_insert_app. simpl. rewrite list_elem_of_singleton. done.
Qed.

Lemma add_extra_edge_edges_witness :
  edge (Graph.edge_mapping
          (set_edge_mapping fresh_graph
             {["A" := [GraphEdge.mk "A" "B" None];
               "B" := [GraphEdge.mk "B" "A" None]]})) "B" "A"
  ↔ edge (Graph.edge_mapping fresh_graph) "B" "A" ∨ ("B" = "B" ∧ "A" = "A").
Proof.
  refine (add_extra_edge_edges fresh_graph "B" "A" None _ _ _ _ "B" "A").
  - vm_compute. reflexivity.
  - simpl. set_solver.
  - simpl. set_solver.
Defined.

(** X14. A second [add_extra_edge] with the same source and target changes
    nothing, whatever condition it carries. *)
Theorem add_extra_edge_idempotent g s t run_condition run_condition' g' :
  add_extra_edge g s t run_condition = Ok g' →
  add_extra_edge g' s t run_condition' = Ok g'.
Proof.
  intros [[-> Hno]|[(-> & _ & _ & Hd)|(-> & Hs & Ht & Hd)]]%add_extra_edge_cases.
  - apply add_extra_edge_noop. tauto.
  - apply add_extra_edge_noop. tauto.
  - apply add_extra_edge_noop. right; right. simpl.
    unfold targets, edges_of. rewrite lookup_insert_eq. simpl.
    rewrite fmap_app. apply elem_of_app. right. simpl. by left.
Qed.

Lemma add_extra_edge_idempotent_witness :
  add_extra_edge
    (set_edge_mapping fresh_graph
       {["A" := [GraphEdge.mk "A" "B" None]; "B" := [GraphEdge.mk "B" "A" None]]})
    "B" "A" (Some (RunCondition.mk "branch_identify" (Some "x")))
  = Ok (set_edge_mapping fresh_graph
          {["A" := [GraphEdge.mk "A" "B" None]; "B" := [GraphEdge.mk "B" "A" None]]}).
Proof.
  apply (add_extra_edge_idempotent fresh_graph "B" "A" None).
  vm_compute. reflexivity.
Defined.

(** X15. [add_extra_edge] does not touch [node_ids], and need not: an edge is
    added only between nodes already listed, so when [node_ids] was the
    set of reachable nodes before the call it still is afterwards. *)
Theorem add_extra_edge_keeps_closure g s t run_condition g' :
  add_extra_edge g s t run_condition = Ok g' →
  node_ids_closed g → node_ids_closed g'.
Proof.
  intros [[-> _]|[(-> & _)|(-> & Hs & Ht & Hd)]]%add_extra_edge_cases; [done|done|].
  intros [Hnd Hcl]. split; [done|]. simpl. intros n. split.
  - intros Hn%Hcl. eapply rtc_subrel; [|exact Hn].
    intros x y Hxy. apply edge_insert_app. by left.
  - apply rtc_closed.
    + apply Hcl. apply rtc_refl.
    + intros m Hm x [Hmx|[-> Hx]]%edge_insert_app.
      * apply Hcl. eapply rtc_r; [by apply Hcl | done].
      * simpl in Hx. by apply list_elem_of_singleton in Hx as ->.
Qed.

Lemma fresh_graph_closed : node_ids_closed fresh_graph.
Proof.
  split; simpl.
  - apply NoDup_cons. split; [set_solver|]. apply NoDup_singleton.
  - intros n. split.
    + intros [->|[->|?%elem_of_nil]%elem_of_cons]%elem_of_cons; [done| |done].
      apply rtc_once. unfold edge. vm_compute. by left.
    + apply rtc_closed; [by left|].
      intros m _ x (es & Hin & Hx)%edge_map_to_list. vm_compute in Hin.
      apply list_elem_of_singleton in Hin as [= -> ->]. simpl in Hx.
      apply list_elem_of_singleton in Hx as ->. set_solver.
Qed.

Lemma add_extra_edge_keeps_closure_witness :
  node_ids_closed
    (set_edge_mapping fresh_graph
       {["A" := [GraphEdge.mk "A" "B" None]; "B" := [GraphEdge.mk "B" "A" None]]}).
Proof.
  apply (add_extra_edge_keeps_closure fresh_graph "B" "A" None).
  - vm_compute. reflexivity.
  - exact fresh_graph_closed.
Defined.

(** ** Leaves, on every graph *)

(** X16. [get_leaf_node_ids] returns, in [node_ids] order, the nodes that are
    no key of [edge_mapping] and the nodes with exactly one outgoing edge
    that leads to the root; a node filed with an empty list is not
    returned. *)
Theorem get_leaf_node_ids_filter g :
  get_leaf_node_ids g
  = filter (λ n, n ∉ dom (Graph.edge_mapping g)
                 ∨ targets (Graph.edge_mapping g) n = [Graph.root_node_id g])
      (Graph.node_ids g).
Proof.
  unfold get_leaf_node_ids.
  rewrite (foldl_append_filter
             (λ n, n ∉ dom (Graph.edge_mapping g)
                   ∨ targets (Graph.edge_mapping g) n = [Graph.root_node_id g]));
    [done|].
  intros acc n. unfold targets, edges_of.
  destruct (Graph.edge_mapping g !! n) as [[|e [|e' es]]|] eqn:Hn; simpl.
  - case_decide as H2; [|done].
    destruct H2 as [H2%not_elem_of_dom|H2]; [congruence|done].
  - case_bool_decide as H1; case_decide as H2; try done.
    + destruct H1 as [_ [= H1]]. exfalso. apply H2. right. by rewrite H1.
    + destruct H2 as [H2%not_elem_of_dom|[= H2]]; [congruence|].
      exfalso. apply H1. by rewrite H2.
  - case_decide as H2; [|done].
    destruct H2 as [H2%not_elem_of_dom|H2]; [congruence|done].
  - case_decide as H2; [done|]. exfalso. apply H2. left. by apply not_elem_of_dom.
Qed.

(** ** Execution frontier, with routes recorded *)

Lemma route_final_graph_edges_frontier g root_routes :
  route_final_graph_edges g root_routes = frontier_edges g root_routes.
Proof.
  unfold route_final_graph_edges, frontier_edges.
  assert (Hinner : ∀ es acc,
    foldl (λ acc edge,
        if bool_decide (is_Some (GraphState.routes (Graph.run_state g)
                                   !! GraphEdge.target_node_id edge))
        then acc else acc ++ [edge]) acc es
    = acc ++ List.filter (λ graph_edge,
               bool_decide (GraphEdge.target_node_id graph_edge
                              ∉ dom (GraphState.routes (Graph.run_state g)))) es).
  { induction es as [|e es IH]; intros acc; simpl; [by rewrite app_nil_r|].
    rewrite IH.
    assert (Hd : bool_decide (GraphEdge.target_node_id e
                                ∉ dom (GraphState.routes (Graph.run_state g)))
                 = negb (bool_decide (is_Some (GraphState.routes (Graph.run_state g)
                                                 !! GraphEdge.target_node_id e)))).
    { rewrite <- bool_decide_not. apply bool_decide_ext. by rewrite elem_of_dom. }
    rewrite Hd. destruct (bool_decide (is_Some _)); simpl; [done|].
    by rewrite <- app_assoc. }
  assert (Hgen : ∀ acc,
    foldl (λ acc route,
        match Graph.edge_mapping g !! GraphStateRoute.node_id route with
        | None | Some [] => acc
        | Some graph_edges =>
          foldl (λ acc edge,
              if bool_decide (is_Some (GraphState.routes (Graph.run_state g)
                                         !! GraphEdge.target_node_id edge))
              then acc else acc ++ [edge])
            acc graph_edges
        end) acc root_routes
    = acc ++ frontier_edges g root_routes); [|by rewrite Hgen].
  unfold frontier_edges.
  induction root_routes as [|route rest IH]; intros acc; simpl; [by rewrite app_nil_r|].
  rewrite IH. unfold edges_of.
  destruct (Graph.edge_mapping g !! GraphStateRoute.node_id route) as [[|e es]|]; simpl.
  - done.
  - change (foldl _ (if bool_decide (is_Some (GraphState.routes (Graph.run_state g)
                                               !! GraphEdge.target_node_id e))
                     then acc else acc ++ [e]) es)
      with (foldl (λ acc edge,
              if bool_decide (is_Some (GraphState.routes (Graph.run_state g)
                                         !! GraphEdge.target_node_id edge))
              then acc else acc ++ [edge]) acc (e :: es)).
    rewrite Hinner. simpl. by rewrite <- app_assoc.
  - done.
Qed.

(** X17. With routes recorded under the root, the node ids [next_node_ids]
    returns are the targets of the frontier edges whose condition passes,
    one entry per edge and in the order of the edges, so a node reached
    over two such edges is returned twice; each entry carries the parallel
    recorded for its node. *)
Theorem next_node_ids_frontier check g root_routes next_graph_nodes :
  GraphState.routes (Graph.run_state g) !! Graph.root_node_id g = Some root_routes →
  next_node_ids check g = Ok next_graph_nodes →
  NextGraphNode.node_id <$> next_graph_nodes
  = GraphEdge.target_node_id <$>
      List.filter (passes check g) (frontier_edges g root_routes)
  ∧ ∀ x, x ∈ next_graph_nodes →
         parallel_of g (NextGraphNode.node_id x) = Ok (NextGraphNode.parallel x).
Proof.
  intros Hroot. unfold next_node_ids.
  rewrite bool_decide_eq_false_2.
  2: { intros Hempty. rewrite Hempty, lookup_empty in Hroot. done. }
  rewrite Hroot, route_final_graph_edges_frontier.
  generalize (frontier_edges g root_routes) as fe. intros fe.
  assert (Hgen : ∀ acc l,
    for_result (λ next_graph_nodes route_final_graph_edge,
        let node_id := GraphEdge.target_node_id route_final_graph_edge in
        result_bind
          (match GraphEdge.run_condition route_final_graph_edge with
           | Some run_condition =>
             check run_condition
               (GraphEdge.source_node_id route_final_graph_edge)
               (GraphEdge.target_node_id route_final_graph_edge)
               g
           | None => Ok true
           end)
          (λ result,
             if result : bool then
               result_bind (parallel_of g node_id) (λ parallel,
                 Ok (next_graph_nodes ++ [NextGraphNode.mk node_id parallel]))
             else Ok next_graph_nodes)) acc fe = Ok l →
    ∃ new, l = acc ++ new
      ∧ NextGraphNode.node_id <$> new
        = GraphEdge.target_node_id <$> List.filter (passes check g) fe
      ∧ ∀ x, x ∈ new →
             parallel_of g (NextGraphNode.node_id x) = Ok (NextGraphNode.parallel x)).
  { induction fe as [|e fe IH]; intros acc l; simpl.
    - intros [= <-]. exists []. rewrite app_nil_r. split_and!; [done|done|].
      intros x Hx. by apply elem_of_nil in Hx.
    - destruct (match GraphEdge.run_condition e with
                | Some rc => check rc (GraphEdge.source_node_id e)
                               (GraphEdge.target_node_id e) g
                | None => Ok true
                end) as [b|err] eqn:Hcond; simpl; [|done].
      assert (Hp : passes check g e = b).
      { unfold passes. destruct (GraphEdge.run_condition e);
          [by rewrite Hcond | by injection Hcond]. }
      rewrite Hp. destruct b.
      + destruct (parallel_of g (GraphEdge.target_node_id e)) as [par|err] eqn:Hpar;
          simpl; [|done].
        intros (new & -> & Hids & Hpars)%IH.
        exists (NextGraphNode.mk (GraphEdge.target_node_id e) par :: new).
        rewrite <- app_assoc. split_and!; [done | by rewrite !fmap_cons, Hids |].
        intros x [->|Hx]%elem_of_cons; auto.
      + apply IH. }
  intros Hrun. destruct (Hgen _ _ Hrun) as (new & -> & Hids & Hpars). done.
Qed.

Lemma next_node_ids_frontier_witness :
  NextGraphNode.node_id <$> [NextGraphNode.mk "B" None]
  = GraphEdge.target_node_id <$>
      List.filter (passes check_pass started_graph)
        (frontier_edges started_graph [GraphStateRoute.mk "r1" "A"])
  ∧ ∀ x, x ∈ [NextGraphNode.mk "B" None] →
         parallel_of started_graph (NextGraphNode.node_id x)
         = Ok (NextGraphNode.parallel x).
Proof.
  apply (next_node_ids_frontier check_pass started_graph).
  - vm_compute. reflexivity.
  - vm_compute. reflexivity.
Defined.

Lemma for_result_Raise {A S} (f : S → A → result S) l : ∀ s e,
  for_result f s l = Raise e → ∃ s' x, x ∈ l ∧ f s' x = Raise e.
Proof.
  induction l as [|x l IH]; intros s e; simpl; [done|].
  destruct (f s x) as [s1|e1] eqn:Hx; simpl.
  - intros (s' & y & Hy & Hf)%IH. exists s', y. split; [by right | done].
  - intros [= <-]. exists s, x. split; [by left | done].
Qed.

Lemma parallel_of_well_formed g n :
  scopes_well_formed (Graph.parallel_mapping g) (Graph.node_parallel_mapping g) →
  ∃ parallel, parallel_of g n = Ok parallel.
Proof.
  intros [_ Hnpm]. unfold parallel_of.
  destruct (Graph.node_parallel_mapping g !! n) as [i|] eqn:Hn; [|by eauto].
  destruct (Hnpm n i Hn) as [p ->]. eauto.
Qed.

(** X18. On a graph whose scopes are well formed (as [init] leaves them),
    [next_node_ids] raises only in two ways: [KeyError] for the root when
    routes are recorded but none under the root, or whatever a condition
    handler raised.  The lookup of a node's parallel never fails. *)
Theorem next_node_ids_raises check g e :
  scopes_well_formed (Graph.parallel_mapping g) (Graph.node_parallel_mapping g) →
  next_node_ids check g = Raise e →
  (GraphState.routes (Graph.run_state g) ≠ ∅
   ∧ GraphState.routes (Graph.run_state g) !! Graph.root_node_id g = None
   ∧ e = KeyError (NodeKey (Graph.root_node_id g)))
  ∨ ∃ run_condition s t, check run_condition s t g = Raise e.
Proof.
  intros Hwf. unfold next_node_ids. case_bool_decide as Hempty; [done|].
  destruct (GraphState.routes (Graph.run_state g) !! Graph.root_node_id g)
    as [root_routes|] eqn:Hroot.
  - intros (acc & edge & _ & Hbody)%for_result_Raise. right.
    destruct (GraphEdge.run_condition edge) as [rc|]; simpl in Hbody.
    + destruct (check rc _ _ g) as [[|]|err] eqn:Hcheck; simpl in Hbody.
      * destruct (parallel_of_well_formed g (GraphEdge.target_node_id edge) Hwf)
          as [par Hpar]. by rewrite Hpar in Hbody.
      * done.
      * injection Hbody as <-. eauto.
    + destruct (parallel_of_well_formed g (GraphEdge.target_node_id edge) Hwf)
        as [par Hpar]. by rewrite Hpar in Hbody.
  - intros [= <-]. by left.
Qed.

Lemma fresh_graph_scopes :
  scopes_well_formed (Graph.parallel_mapping fresh_graph)
    (Graph.node_parallel_mapping fresh_graph).
Proof. split; simpl; intros ? ?; by rewrite lookup_empty. Qed.

Lemma next_node_ids_raises_witness :
  (GraphState.routes (Graph.run_state (set_routes fresh_graph {["B" := []]})) ≠ ∅
   ∧ GraphState.routes (Graph.run_state (set_routes fresh_graph {["B" := []]}))
       !! Graph.root_node_id (set_routes fresh_graph {["B" := []]}) = None
   ∧ KeyError (NodeKey "A")
     = KeyError (NodeKey (Graph.root_node_id (set_routes fresh_graph {["B" := []]}))))
  ∨ ∃ run_condition s t,
      check_pass run_condition s t (set_routes fresh_graph {["B" := []]})
      = Raise (KeyError (NodeKey "A")).
Proof.
  apply (next_node_ids_raises check_pass (set_routes fresh_graph {["B" := []]})).
  - exact fresh_graph_scopes.
  - reflexivity.
Defined.

(** ** Construction succeeds *)

(** X9. [_fetch_all_node_ids_in_parallels] returns on every adjacency, cyclic
    or not, once the call stack may be deeper than the number of edge
    targets, and the keys of the dictionary it returns are the branch
    roots it was given. *)
Theorem fetch_all_returns fuel em parallel_node_ids :
  size (all_targets em) < fuel →
  ∃ d, _fetch_all_node_ids_in_parallels fuel em parallel_node_ids = Some d
       ∧ ∀ k, k ∈ odict_keys d ↔ k ∈ parallel_node_ids.
Proof.
  intros Hfuel. destruct (fetch_all_terminates em fuel parallel_node_ids Hfuel) as [d Hd].
  exists d. split; [done|]. by eapply fetch_all_keys.
Qed.

Lemma fetch_all_returns_witness :
  ∃ d, _fetch_all_node_ids_in_parallels 3 (config_edge_mapping loop_back_config) ["A"; "B"]
       = Some d
       ∧ ∀ k, k ∈ odict_keys d ↔ k ∈ ["A"; "B"].
Proof.
  apply (fetch_all_returns 3 (config_edge_mapping loop_back_config) ["A"; "B"]).
  vm_compute. lia.
Defined.

(** X4. With a valid root and no cycle in what the root reaches, [init]
    returns a graph as soon as the call stack may be deeper than the
    number of nodes plus the number of edge targets; the graph has the
    given root and the adjacency of the configuration. *)
Theorem init_builds_graph fuel graph_config variable_pool r :
  valid_root graph_config r →
  loop_back_tolerated (config_edge_mapping graph_config) r →
  size ({[r]} ∪ all_targets (config_edge_mapping graph_config))
    + size (all_targets (config_edge_mapping graph_config)) < fuel →
  ∃ g, init fuel graph_config variable_pool (Some r) = Some (Ok g)
       ∧ Graph.root_node_id g = r
       ∧ Graph.edge_mapping g = config_edge_mapping graph_config.
Proof.
  intros Hvalid Htol Hfuel.
  assert (is_Some (init fuel graph_config variable_pool (Some r))) as [res Hres].
  { pose proof (target_ids_edge graph_config) as Htgs.
    destruct Hvalid as (Hne & (c & Hc & Hid) & Hno).
    revert Htgs Htol Hfuel Hno. unfold init, config_edge_mapping.
    destruct (parse_edge_configs _) as [em tgs]. simpl. intros Htgs Htol Hfuel Hno.
    destruct (GraphConfig.nodes graph_config) as [[|nc ncs]|];
      [by apply elem_of_nil in Hc| |by apply elem_of_nil in Hc].
    assert (root_found
              (fetch_root_node (Some r) (fetch_root_node_configs tgs (nc :: ncs)))
              (NodeConfig.id <$> fetch_root_node_configs tgs (nc :: ncs)) = Some r)
      as ->.
    { apply root_found_Some. split_and!.
      - simpl. by rewrite bool_decide_eq_true_2.
      - intros (s & Hs)%Htgs. by eapply Hno.
      - by exists c. }
    assert (Hacyc : ∀ n, rtc (edge em) r n → ¬ tc (edge em) n n).
    { intros n Hn Hcyc. apply (Htol n Hn).
      assert (Hgen : ∀ a b, tc (edge em) a b
                            → tc (λ s t, edge em s t ∧ t ≠ r) a b); [|by apply Hgen].
      clear n Hn Hcyc. intros a b Hcyc.
      induction Hcyc as [x y Hxy|x y z Hxy _ IH].
      - apply tc_once. split; [exact Hxy|]. intros ->. by eapply Hno.
      - eapply tc_l; [|exact IH]. simpl. split; [exact Hxy|]. intros ->. by eapply Hno. }
    rewrite add_node_ids_guarded_walk.
    destruct (guarded_walk_terminates (λ _, false) em fuel [r] r) as (ids & -> & _).
    { assert (size (all_targets em ∖ list_to_set [r]) ≤ size (all_targets em))
        by (apply subseteq_size; set_solver). lia. }
    simpl.
    destruct (add_parallels_terminates em r Hacyc fuel r ∅ (mk_parallels ∅ ∅ 0))
      as [st ->]; [done|set_solver| |by simpl; eauto].
    assert (size (({[r]} ∪ all_targets em) ∖ ∅) ≤ size ({[r]} ∪ all_targets em))
      by (apply subseteq_size; set_solver). lia. }
  destruct (init_valid_root_returns_graph _ _ _ _ _ Hvalid Hres) as (g & -> & Hroot).
  exists g. split_and!; [done|done|].
  by apply init_Ok_inv in Hres as (_ & _ & _ & _ & Hem & _).
Qed.

Lemma diamond_config_valid_root : valid_root diamond_config "A".
Proof.
  split_and!; [done| |].
  - exists (node "A" "start"). split; [|done]. simpl. by left.
  - intros s (es & Hin & Ht)%edge_map_to_list.
    vm_compute in Hin.
    repeat (apply elem_of_cons in Hin as [[= -> ->]|Hin]);
      [..|by apply elem_of_nil in Hin];
      simpl in Ht; repeat (apply elem_of_cons in Ht as [[=]|Ht]);
      by apply elem_of_nil in Ht.
Qed.

Lemma init_builds_graph_witness :
  ∃ g, init 8 diamond_config (VariablePoolRef 0) (Some "A") = Some (Ok g)
       ∧ Graph.root_node_id g = "A"
       ∧ Graph.edge_mapping g = config_edge_mapping diamond_config.
Proof.
  apply (init_builds_graph 8 diamond_config (VariablePoolRef 0) "A").
  - exact diamond_config_valid_root.
  - exact diamond_config_tolerated.
  - vm_compute. lia.
Defined.
